(** * numpad.adtools: one-dimensional interpolation ([class interp])

    A shallow embedding of [src/adtools.py].  The class stores a node
    vector [x0] and a value table [y0] (one column for the linear kind, two
    columns - sample and fitted derivative - for the cubic kind) and answers
    value and derivative queries by locating the interval of each query
    point with [np.searchsorted].

    Numbers.  The Python code computes on IEEE doubles; the properties
    studied here are the algebraic ones, so array entries are exact
    rationals ([Qc], canonical fractions with Leibniz equality).  Division
    by zero, which NumPy answers with inf/nan and a warning, is [x / 0 = 0]
    in [Qc]; every theorem below that divides assumes or establishes a
    nonzero divisor.

    Arrays.  An [ndarray] is a shape and row-major data, as in NumPy; the
    operations the class uses (broadcasting arithmetic, basic and integer
    indexing, [ravel], [reshape], [hstack], [transpose]) are modelled in
    [Module Np], raising the Python exception NumPy raises.

    Collaborators.  The nonlinear solver [solve] of [numpad.adsolve] is not
    part of this file's subject; it is a parameter of the constructor. *)

From Stdlib Require Import String QArith Qcanon ZArith List Bool Arith Lia Field.
Import ListNotations.

Set Implicit Arguments.

(** ** Python exceptions and the result monad *)

Inductive exn : Type :=
| AssertionError
| IndexError
| TypeError
| ValueError (msg : string).

Inductive res (A : Type) : Type :=
| Ok (a : A)
| Raise (e : exn).

Arguments Ok {A} a.
Arguments Raise {A} e.

Definition bind {A B : Type} (m : res A) (k : A -> res B) : res B :=
  match m with
  | Ok a => k a
  | Raise e => Raise e
  end.

Notation "x <- m ;; k" := (bind m (fun x => k))
  (at level 61, m at next level, right associativity).
Notation "' p <- m ;; k" := (bind m (fun p => k))
  (at level 61, p pattern, m at next level, right associativity).

Fixpoint mapM {A B : Type} (f : A -> res B) (l : list A) : res (list B) :=
  match l with
  | [] => Ok []
  | a :: l' => b <- f a ;; bs <- mapM f l' ;; Ok (b :: bs)
  end.

(** ** Numbers *)

Open Scope Qc_scope.

(** Integer literals of the source ([6 * slope], [2 * yp], ...), built from
    [1] so that [ring] and [field] read them as constants. *)
Fixpoint of_pos (p : positive) : Qc :=
  match p with
  | xH => 1
  | xO p' => (1 + 1) * of_pos p'
  | xI p' => 1 + (1 + 1) * of_pos p'
  end.

Definition num (z : Z) : Qc :=
  match z with
  | Z0 => 0
  | Zpos p => of_pos p
  | Zneg p => - of_pos p
  end.

(** A fraction [n/d] of two integer literals. *)
Definition frac (n d : Z) : Qc := num n / num d.

Definition Qc_ltb (a b : Qc) : bool :=
  match a ?= b with
  | Lt => true
  | _ => false
  end.

Definition Qc_eqb (a b : Qc) : bool :=
  match a ?= b with
  | Eq => true
  | _ => false
  end.

(** ** NumPy arrays *)

Module Np.

Local Open Scope nat_scope.

Record ndarray (A : Type) : Type := NdArray {
  shape : list nat;
  data : list A
}.

Arguments NdArray {A} shape data.

Definition prod (s : list nat) : nat := fold_right Nat.mul 1%nat s.

Definition size {A} (a : ndarray A) : nat := prod (shape a).
Definition ndim {A} (a : ndarray A) : nat := length (shape a).

(** The array invariant: as many entries as the shape announces. *)
Definition wf {A} (a : ndarray A) : Prop := length (data a) = size a.

(** A one-dimensional array. *)
Definition vec {A} (l : list A) : ndarray A := NdArray [length l] l.

Definition zeros (n : nat) : ndarray Qc := NdArray [n] (repeat 0%Qc n).

Definition ravel {A} (a : ndarray A) : ndarray A :=
  NdArray [size a] (data a).

Definition reshape {A} (a : ndarray A) (s : list nat) : res (ndarray A) :=
  if (prod s =? size a)%nat then Ok (NdArray s (data a))
  else Raise (ValueError "cannot reshape array").

(** *** Broadcasting *)

(** Shapes are matched from the last axis; [bshape] works on reversed
    shapes. *)
Fixpoint bshape (r1 r2 : list nat) : option (list nat) :=
  match r1, r2 with
  | [], _ => Some r2
  | _, [] => Some r1
  | n :: r1', m :: r2' =>
      match bshape r1' r2' with
      | None => None
      | Some r =>
          if (n =? m)%nat then Some (n :: r)
          else if (n =? 1)%nat then Some (m :: r)
          else if (m =? 1)%nat then Some (n :: r)
          else None
      end
  end.

Definition broadcast_shapes (s1 s2 : list nat) : option (list nat) :=
  option_map (@rev nat) (bshape (rev s1) (rev s2)).

(** Flat position, in an operand of reversed shape [rs], of the entry that
    is broadcast to flat position [p] of a result of reversed shape [rt]. *)
Fixpoint bidx (rt rs : list nat) (p stride : nat) : nat :=
  match rt, rs with
  | n :: rt', m :: rs' =>
      ((if (m =? 1)%nat then 0 else p mod n) * stride
       + bidx rt' rs' (p / n) (stride * m))%nat
  | _, _ => 0%nat
  end.

Definition src {A} (s : list nat) (a : ndarray A) (p : nat) : option A :=
  nth_error (data a) (bidx (rev s) (rev (shape a)) p 1).

(** Elementwise binary operation with broadcasting. *)
Definition ew2 {A B C} (f : A -> B -> C) (a : ndarray A) (b : ndarray B)
  : res (ndarray C) :=
  match broadcast_shapes (shape a) (shape b) with
  | None => Raise (ValueError "operands could not be broadcast together")
  | Some s =>
      Ok (NdArray s
            (flat_map (fun p => match src s a p, src s b p with
                                | Some u, Some v => [f u v]
                                | _, _ => []
                                end)
                      (seq 0 (prod s))))
  end.

(** Elementwise unary operation; also an operation with a Python scalar. *)
Definition ew1 {A B} (f : A -> B) (a : ndarray A) : ndarray B :=
  NdArray (shape a) (map f (data a)).

(** In-place operation [a op= b]: the broadcast result must have the shape
    of [a]. *)
Definition iop {A B} (f : A -> B -> A) (a : ndarray A) (b : ndarray B)
  : res (ndarray A) :=
  r <- ew2 f a b ;;
  if list_eq_dec Nat.eq_dec (shape r) (shape a) then Ok r
  else Raise (ValueError "non-broadcastable output operand").

(** *** Indexing *)

(** Block [k] of [c] consecutive entries. *)
Definition block {A} (c k : nat) (l : list A) : list A :=
  firstn c (skipn (k * c) l).

(** [a[1:]], [a[:-1]], [a[:1]] and [a[-1:]]: slices of the first axis. *)
Definition slice_1_ {A} (a : ndarray A) : res (ndarray A) :=
  match shape a with
  | [] => Raise IndexError
  | d0 :: rest => Ok (NdArray ((d0 - 1) :: rest) (skipn (prod rest) (data a)))
  end.

Definition slice__m1 {A} (a : ndarray A) : res (ndarray A) :=
  match shape a with
  | [] => Raise IndexError
  | d0 :: rest =>
      Ok (NdArray ((d0 - 1) :: rest) (firstn ((d0 - 1) * prod rest) (data a)))
  end.

Definition slice__1 {A} (a : ndarray A) : res (ndarray A) :=
  match shape a with
  | [] => Raise IndexError
  | d0 :: rest =>
      Ok (NdArray (Nat.min 1 d0 :: rest)
                  (firstn (Nat.min 1 d0 * prod rest) (data a)))
  end.

Definition slice_m1_ {A} (a : ndarray A) : res (ndarray A) :=
  match shape a with
  | [] => Raise IndexError
  | d0 :: rest =>
      Ok (NdArray (Nat.min 1 d0 :: rest)
                  (skipn ((d0 - Nat.min 1 d0) * prod rest) (data a)))
  end.

(** [a[:, j]]: entry [j] of the second axis. *)
Definition col {A} (a : ndarray A) (j : nat) : res (ndarray A) :=
  match shape a with
  | d0 :: d1 :: rest =>
      if (j <? d1)%nat then
        Ok (NdArray (d0 :: rest)
              (flat_map (fun r => block (prod rest) (r * d1 + j) (data a))
                        (seq 0 d0)))
      else Raise IndexError
  | _ => Raise IndexError
  end.

(** [a[:, np.newaxis]]. *)
Definition newaxis1 {A} (a : ndarray A) : res (ndarray A) :=
  match shape a with
  | [] => Raise IndexError
  | d0 :: rest => Ok (NdArray (d0 :: 1%nat :: rest) (data a))
  end.

(** [a[i]] for an integer array [i]: entries of the first axis, negative
    indices counting from the end. *)
Definition take {A} (a : ndarray A) (i : ndarray Z) : res (ndarray A) :=
  match shape a with
  | [] => Raise IndexError
  | d0 :: rest =>
      rows <- mapM (fun k : Z =>
                      let k' := (if k <? 0 then k + Z.of_nat d0 else k)%Z in
                      if ((0 <=? k') && (k' <? Z.of_nat d0))%Z
                      then Ok (block (prod rest) (Z.to_nat k') (data a))
                      else Raise IndexError)
                   (data i) ;;
      Ok (NdArray (shape i ++ rest) (concat rows))
  end.

(** *** Joining *)

Definition atleast_1d {A} (a : ndarray A) : ndarray A :=
  match shape a with
  | [] => NdArray [1%nat] (data a)
  | _ => a
  end.

Definition hstack {A} (arrs : list (ndarray A)) : res (ndarray A) :=
  match map atleast_1d arrs with
  | [] => Raise (ValueError "need at least one array to concatenate")
  | (a :: _) as l =>
      match shape a with
      | [_] =>
          if forallb (fun b => (ndim b =? 1)%nat) l
          then Ok (vec (concat (map (@data A) l)))
          else Raise (ValueError "all the input arrays must have same number of dimensions")
      | d0 :: _ :: rest =>
          if forallb (fun b => match shape b with
                               | e0 :: _ :: r =>
                                   (e0 =? d0)%nat
                                   && if list_eq_dec Nat.eq_dec r rest
                                      then true else false
                               | _ => false
                               end) l
          then Ok (NdArray
                     (d0 :: fold_right (fun b n => (nth 1 (shape b) 0 + n)%nat) 0%nat l
                         :: rest)
                     (flat_map
                        (fun r => flat_map
                                    (fun b => block (nth 1 (shape b) 0 * prod rest)%nat
                                                    r (data b)) l)
                        (seq 0 d0)))
          else Raise (ValueError "all the input array dimensions must match")
      | [] => Raise (ValueError "zero-dimensional arrays cannot be concatenated")
      end
  end.

(** The entries of two lists, paired: row-major data of the array whose
    rows are [u_k, v_k]. *)
Definition interleave {A} (u v : list A) : list A :=
  flat_map (fun p => [fst p; snd p]) (combine u v).

(** [transpose([u, v])] for two one-dimensional arrays of one length [n]:
    the [n] by [2] array of the pairs.  The class is documented for
    one-dimensional data ('1D interpolation'); for other ranks, and for two
    lengths, where NumPy cannot build a rectangular array, the call is
    refused. *)
Definition transpose2 {A} (u v : ndarray A) : res (ndarray A) :=
  match shape u, shape v with
  | [n], [m] =>
      if (n =? m)%nat then Ok (NdArray [n; 2%nat] (interleave (data u) (data v)))
      else Raise (ValueError "setting an array element with a sequence")
  | _, _ => Raise (ValueError "transpose: not two one-dimensional arrays")
  end.

(** *** Searching and reductions *)

(** The binary search of [np.searchsorted] for [side='left'], NumPy's
    default: between [lo] and [hi], move [lo] past the middle entry when it
    is below [v], else move [hi] onto it.  The loop runs at most [hi - lo]
    times; [fuel] counts them. *)
Fixpoint bisect_left (fuel : nat) (a : list Qc) (v : Qc) (lo hi : nat) : nat :=
  match fuel with
  | O => lo
  | S fuel' =>
      if lo <? hi then
        let mid := lo + (hi - lo) / 2 in
        if Qc_ltb (nth mid a 0%Qc) v then bisect_left fuel' a v (S mid) hi
        else bisect_left fuel' a v lo mid
      else lo
  end.

Definition searchsorted_left (a : list Qc) (v : Qc) : nat :=
  bisect_left (length a) a v 0 (length a).

(** [np.searchsorted(a, v)]: an integer per entry of [v].  For a
    zero-dimensional [v] NumPy returns an integer scalar; it is the
    zero-dimensional result here. *)
Definition searchsorted (a v : ndarray Qc) : res (ndarray Z) :=
  match shape a with
  | [_] => Ok (ew1 (fun q => Z.of_nat (searchsorted_left (data a) q)) v)
  | _ => Raise (ValueError "object of too small depth for desired array")
  end.

(** [np.maximum(i, c, i)] and [np.minimum(i, c, i)]: the result is written
    into [i], which has to be an array: an integer scalar is refused. *)
Definition into {A} (f : A -> A) (i : ndarray A) : res (ndarray A) :=
  match shape i with
  | [] => Raise TypeError
  | _ => Ok (ew1 f i)
  end.

Definition all (a : ndarray bool) : bool := forallb (fun b => b) (data a).

End Np.

Import Np.

(** ** Array expressions

    Arithmetic on arrays can raise; an expression is evaluated left to
    right in the result monad, so the notations below take and return
    [res (ndarray Qc)].  A variable of the source is [Ok v]. *)

Definition lift2 (f : Qc -> Qc -> Qc) (a b : res (ndarray Qc))
  : res (ndarray Qc) :=
  a' <- a ;; b' <- b ;; ew2 f a' b'.

Definition scal (f : Qc -> Qc) (a : res (ndarray Qc)) : res (ndarray Qc) :=
  a' <- a ;; Ok (ew1 f a').

Declare Scope arr_scope.
Delimit Scope arr_scope with arr.

Notation "a + b" := (lift2 Qcplus a b) : arr_scope.
Notation "a - b" := (lift2 Qcminus a b) : arr_scope.
Notation "a * b" := (lift2 Qcmult a b) : arr_scope.
Notation "a / b" := (lift2 Qcdiv a b) : arr_scope.
Notation "- a" := (scal Qcopp a) : arr_scope.
Notation "a ^ n" := (scal (fun v => Qcpower v n) a) : arr_scope.
(** [c *: a] and [c -: a]: a Python number times, or minus, an array. *)
Notation "c *: a" := (scal (Qcmult c) a)
  (at level 40, left associativity) : arr_scope.
Notation "c -: a" := (scal (Qcminus c) a)
  (at level 50, left associativity) : arr_scope.

(** ** The class [interp] *)

Record interp : Type := Interp {
  x0 : ndarray Qc;   (* self.x0: the nodes *)
  y0 : ndarray Qc    (* self.y0: one row per node, [y] or [y, y'] *)
}.

(** [interp.cspline_resid(self, yp, x, y)]; [self] is not used. *)
Definition cspline_resid (yp x y : ndarray Qc) : res (ndarray Qc) :=
  (dx <- slice_1_ x - slice__m1 x ;;
   slope <- (slice_1_ y - slice__m1 y) / Ok dx ;;
   curv_L <- (num 6 *: Ok slope - num 4 *: slice__m1 yp
              - num 2 *: slice_1_ yp) / Ok dx ;;
   curv_R <- (num 4 *: slice_1_ yp + num 2 *: slice__m1 yp
              - num 6 *: Ok slope) / Ok dx ;;
   h0 <- slice__1 curv_L ;;
   h1 <- slice_1_ curv_L - slice__m1 curv_R ;;
   h2 <- - slice_m1_ curv_R ;;
   hstack [h0; h1; h2])%arr.

Section Constructor.

(** [numpad.adsolve.solve(residual, guess, args)], with [args] already given
    to the residual. *)
Variable solve :
  (ndarray Qc -> res (ndarray Qc)) -> ndarray Qc -> res (ndarray Qc).

(** [interp.__init__(self, x0, y0, type)]. *)
Definition __init__ (x0 y0 : ndarray Qc) (type : string) : res interp :=
  hi <- slice_1_ x0 ;;
  lo <- slice__m1 x0 ;;
  gt <- ew2 (fun u v => Qc_ltb v u) hi lo ;;
  if negb (all gt) then Raise AssertionError
  else if String.eqb type "linear" then
    y <- newaxis1 y0 ;;
    Ok (Interp x0 y)
  else if String.eqb type "cubic" then
    y0p <- solve (fun yp => cspline_resid yp x0 y0) (zeros (size y0)) ;;
    y <- transpose2 y0 y0p ;;
    Ok (Interp x0 y)
  else Raise (ValueError ("interp: unknown type " ++ type)).

End Constructor.

(** [interp.find(self, x)]: 'which interval to look at?' *)
Definition find (self : interp) (x : ndarray Qc)
  : res (ndarray Qc * ndarray Qc * ndarray Qc * ndarray Qc) :=
  i <- searchsorted (x0 self) x ;;
  i <- into (fun k => Z.max k 1) i ;;
  i <- into (fun k => Z.min k (Z.of_nat (size (x0 self)) - 1)) i ;;
  xa <- take (x0 self) (ew1 (fun k => k - 1)%Z i) ;;
  xb <- take (x0 self) i ;;
  ya <- take (y0 self) (ew1 (fun k => k - 1)%Z i) ;;
  yb <- take (y0 self) i ;;
  Ok (xa, xb, ya, yb).

(** [self.y0.shape[1]]. *)
Definition ncols (self : interp) : res nat :=
  match nth_error (shape (y0 self)) 1 with
  | Some c => Ok c
  | None => Raise IndexError
  end.

(** [interp.__call__(self, x)]. *)
Definition __call__ (self : interp) (x : ndarray Qc) : res (ndarray Qc) :=
  let shape := shape x in
  let x := ravel x in
  '(x0, x1, y0, y1) <- find self x ;;
  (x_x0 <- (Ok x - Ok x0) / (Ok x1 - Ok x0) ;;
   x_x1 <- 1 -: Ok x_x0 ;;
   y <- Ok x_x0 * col y1 0 + Ok x_x1 * col y0 0 ;;
   c <- ncols self ;;
   y <- (if (c =? 2)%nat then
           slope <- (col y1 0 - col y0 0) / (Ok x1 - Ok x0) ;;
           d <- (Ok x_x0 - num 2 *: Ok x_x0 ^ 2 + Ok x_x0 ^ 3)
                  * (col y0 1 - Ok slope) * (Ok x1 - Ok x0)
                + (Ok x_x1 - num 2 *: Ok x_x1 ^ 2 + Ok x_x1 ^ 3)
                  * (col y1 1 - Ok slope) * (Ok x0 - Ok x1) ;;
           iop Qcplus y d
         else Ok y) ;;
   reshape y shape)%arr.

(** [interp.derivative(self, x)]. *)
Definition derivative (self : interp) (x : ndarray Qc) : res (ndarray Qc) :=
  '(x0, x1, y0, y1) <- find self x ;;
  (yp <- (col y1 0 - col y0 0) / (Ok x1 - Ok x0) ;;
   c <- ncols self ;;
   if (c =? 2)%nat then
     x_x0 <- (Ok x - Ok x0) / (Ok x1 - Ok x0) ;;
     x_x1 <- 1 -: Ok x_x0 ;;
     slope <- (col y1 0 - col y0 0) / (Ok x1 - Ok x0) ;;
     d <- (1 -: num 4 *: Ok x_x0 + num 3 *: Ok x_x0 ^ 2)
            * (col y0 1 - Ok slope)
          + (1 -: num 4 *: Ok x_x1 + num 3 *: Ok x_x1 ^ 2)
            * (col y1 1 - Ok slope) ;;
     iop Qcplus yp d
   else Ok yp)%arr.

(** ** Reading an array pointwise

    [pw s xs g] is the array of shape [s] whose entries are [g x] for the
    [x] of [xs]: the form every intermediate array of a query takes. *)
Definition pw {X A} (s : list nat) (xs : list X) (g : X -> A) : ndarray A :=
  NdArray s (map g xs).

(** The nodes are strictly increasing: the test of the constructor's
    [assert], on a list. *)
Fixpoint increasingb (l : list Qc) : bool :=
  match l with
  | a :: (b :: _) as t => Qc_ltb a b && increasingb t
  | _ => true
  end.

Definition increasing (l : list Qc) : Prop := increasingb l = true.

(** The leftmost insertion point of [v] in a list: the first index whose
    entry is not below [v].  On a sorted list it is what the binary search
    returns ([searchsorted_left_spec] below). *)
Fixpoint insertion_point (a : list Qc) (v : Qc) : nat :=
  match a with
  | [] => 0
  | h :: t => if Qc_ltb h v then S (insertion_point t v) else 0
  end.

(** The interval index [find] computes for one query value: the search
    result clamped into [1, N-1]. *)
Definition interval (nodes : list Qc) (x : Qc) : Z :=
  Z.min (Z.max (Z.of_nat (searchsorted_left nodes x)) 1)
        (Z.of_nat (length nodes) - 1).

(** Entry [k] of a one-dimensional array, for an in-range integer [k]. *)
Definition at_ (l : list Qc) (k : Z) : Qc := nth (Z.to_nat k) l 0.

(** Row [k] of a table with [c] columns. *)
Definition row (c : nat) (tbl : list Qc) (k : Z) : list Qc :=
  block c (Z.to_nat k) tbl.

(** What [__call__] and [derivative] compute for one query value, on an
    interpolant with nodes [nodes] and a value table [tbl] of [c] columns:
    the bodies of the two methods, read entry by entry. *)
Definition eval_pt (nodes tbl : list Qc) (c : nat) (x : Qc) : Qc :=
  let i := interval nodes x in
  let xa := at_ nodes (i - 1) in
  let xb := at_ nodes i in
  let ra := row c tbl (i - 1) in
  let rb := row c tbl i in
  let t := (x - xa) / (xb - xa) in
  let t1 := 1 - t in
  let y := t * nth 0 rb 0 + t1 * nth 0 ra 0 in
  if (c =? 2)%nat then
    let slope := (nth 0 rb 0 - nth 0 ra 0) / (xb - xa) in
    y + ((t - num 2 * t ^ 2 + t ^ 3) * (nth 1 ra 0 - slope) * (xb - xa)
         + (t1 - num 2 * t1 ^ 2 + t1 ^ 3) * (nth 1 rb 0 - slope) * (xa - xb))
  else y.

Definition deriv_pt (nodes tbl : list Qc) (c : nat) (x : Qc) : Qc :=
  let i := interval nodes x in
  let xa := at_ nodes (i - 1) in
  let xb := at_ nodes i in
  let ra := row c tbl (i - 1) in
  let rb := row c tbl i in
  let yp := (nth 0 rb 0 - nth 0 ra 0) / (xb - xa) in
  if (c =? 2)%nat then
    let t := (x - xa) / (xb - xa) in
    let t1 := 1 - t in
    let slope := (nth 0 rb 0 - nth 0 ra 0) / (xb - xa) in
    yp + ((1 - num 4 * t + num 3 * t ^ 2) * (nth 1 ra 0 - slope)
          + (1 - num 4 * t1 + num 3 * t1 ^ 2) * (nth 1 rb 0 - slope))
  else yp.

(** ** The continuity residual in the specification's words

    Interval [k] lies between nodes [k] and [k+1]. *)
Definition spec_dx (x : list Qc) (k : nat) : Qc := nth (S k) x 0 - nth k x 0.
Definition spec_slope (x y : list Qc) (k : nat) : Qc :=
  (nth (S k) y 0 - nth k y 0) / spec_dx x k.
Definition spec_curv_L (yp x y : list Qc) (k : nat) : Qc :=
  (num 6 * spec_slope x y k - num 4 * nth k yp 0 - num 2 * nth (S k) yp 0)
  / spec_dx x k.
Definition spec_curv_R (yp x y : list Qc) (k : nat) : Qc :=
  (num 4 * nth (S k) yp 0 + num 2 * nth k yp 0 - num 6 * spec_slope x y k)
  / spec_dx x k.

(** The affine combination [a*u + (1-a)*v] of two vectors. *)
Definition mix (a : Qc) (u v : list Qc) : list Qc :=
  map (fun p => a * fst p + (1 - a) * snd p) (combine u v).

(** The three diagonals of the linear system behind the residual:
    [resid(yp) = resid(0) - T yp]. *)
Definition tri_lower (x : list Qc) (i : nat) : Qc :=
  match i with
  | O => 0
  | S j => num 2 / spec_dx x j
  end.

Definition tri_upper (x : list Qc) (i : nat) : Qc :=
  if (S i <? length x)%nat then num 2 / spec_dx x i else 0.

Definition tri_diag (x : list Qc) (i : nat) : Qc :=
  match i with
  | O => 0
  | S j => num 4 / spec_dx x j
  end
  + if (S i <? length x)%nat then num 4 / spec_dx x i else 0.

(** The derivative column stored in [self.y0] is a root of the continuity
    residual for nodes [x] and samples [y]: what a converged [solve] leaves
    in the interpolant. *)
Definition root_stored (self : interp) (x y : ndarray Qc) : bool :=
  match col (y0 self) 1 with
  | Ok yp =>
      match cspline_resid yp x y with
      | Ok r => forallb (Qc_eqb 0) (data r)
      | Raise _ => false
      end
  | Raise _ => false
  end.

(** ** Worked examples

    The cubic scenario of the specification: nodes [0, 1, 2, 3], samples
    [0, 1, 0, 1]; [yp4] is the root of the continuity residual. *)
Definition nodes4 : list Qc := [num 0; num 1; num 2; num 3].
Definition samples4 : list Qc := [num 0; num 1; num 0; num 1].
Definition yp4 : list Qc := [frac 5 3; frac (-1) 3; frac (-1) 3; frac 5 3].

(** A solver that answers [yp4], and one that answers its initial guess. *)
Definition solve4 (f : ndarray Qc -> res (ndarray Qc)) (g : ndarray Qc)
  : res (ndarray Qc) := Ok (vec yp4).
Definition solve0 (f : ndarray Qc -> res (ndarray Qc)) (g : ndarray Qc)
  : res (ndarray Qc) := Ok g.

Definition cubic4 : interp :=
  Interp (vec nodes4) (NdArray [4; 2]%nat (interleave samples4 yp4)).

Definition nodes3 : list Qc := [num 0; num 1; num 2].

Definition samples3 : list Qc := [num 0; num 1; num 4].
Definition linear3 : interp := Interp (vec nodes3) (NdArray [3; 1]%nat samples3).

(** Queries of shape (2, 3) and of shape () for the cubic scenario. *)
Definition q23 : ndarray Qc :=
  NdArray [2; 3]%nat [frac 1 2; num 0; num 1; num 2; num 3; num 4].
Definition q0 : ndarray Qc := NdArray [] [frac 1 2].


(** * Further properties of the class

    Definitions used by the properties of the second part of this file:
    the interpolant between its nodes, uniqueness of the spline, degenerate
    node vectors and shapes. *)

From Stdlib Require Import Lqa.

(** The cubic coefficient of segment [k], a sixth of its third derivative. *)
Definition spec_jerk (yp x y : list Qc) (k : nat) : Qc :=
  (nth k yp 0 + nth (S k) yp 0 - num 2 * spec_slope x y k)
  / (spec_dx x k * spec_dx x k).

Definition two : Qc := 1 + 1.

(** The combination [a*u + b*v] of two vectors. *)
Definition lincomb (a b : Qc) (u v : list Qc) : list Qc :=
  map (fun p => a * fst p + b * snd p) (combine u v).

(** Further worked examples. *)

Definition yp4b : list Qc :=
  [frac 10 6; frac (-2) 6; frac (-2) 6; frac 10 6].

Definition solve4b (f : ndarray Qc -> res (ndarray Qc)) (g : ndarray Qc)
  : res (ndarray Qc) := Ok (vec yp4b).

Definition cubic4b : interp :=
  Interp (vec nodes4) (NdArray [4; 2]%nat (interleave samples4 yp4b)).

Definition slopes4 : list Qc := map (fun _ => num 2) nodes4.

Definition affine4 : list Qc := map (fun n => num 2 * n + num 1) nodes4.

Definition solve_slopes4 (f : ndarray Qc -> res (ndarray Qc)) (g : ndarray Qc)
  : res (ndarray Qc) := Ok (vec slopes4).

Definition cubic_affine4 : interp :=
  Interp (vec nodes4) (NdArray [4; 2]%nat (interleave affine4 slopes4)).

Definition samples_last0 : list Qc := [num 0; num 1; num 2; num 0].

Definition sum4 : list Qc := lincomb (num 3) (num (-1)) samples4 affine4.

Definition yp_sum4 : list Qc := lincomb (num 3) (num (-1)) yp4 slopes4.

Definition solve_sum4 (f : ndarray Qc -> res (ndarray Qc)) (g : ndarray Qc)
  : res (ndarray Qc) := Ok (vec yp_sum4).

Definition cubic_sum4 : interp :=
  Interp (vec nodes4) (NdArray [4; 2]%nat (interleave sum4 yp_sum4)).

(** * Properties *)

(** ** Lists and numbers *)

Lemma Qc_ltb_lt (a b : Qc) : Qc_ltb a b = true <-> a < b.
Proof.
  unfold Qc_ltb. rewrite Qclt_alt.
  destruct (a ?= b); split; intro H; congruence.
Qed.

Lemma Qc_ltb_ge (a b : Qc) : Qc_ltb a b = false <-> b <= a.
Proof.
  split; intro H.
  - apply Qcnot_lt_le. intro L. apply Qc_ltb_lt in L. congruence.
  - destruct (Qc_ltb a b) eqn:E; [|reflexivity].
    apply Qc_ltb_lt in E. exfalso. exact (Qcle_not_lt _ _ H E).
Qed.

Lemma Qc_eqb_eq (a b : Qc) : Qc_eqb a b = true <-> a = b.
Proof.
  unfold Qc_eqb. rewrite Qceq_alt.
  destruct (a ?= b); split; intro H; congruence.
Qed.

Lemma Qc_lt_minus_nz (a b : Qc) : a < b -> b - a <> 0.
Proof.
  intros H E. apply Qclt_minus_iff in H. unfold Qcminus in E.
  rewrite E in H. discriminate H.
Qed.

Lemma flat_map_ext_in {A B} (f g : A -> list B) (l : list A) :
  (forall a, In a l -> f a = g a) -> flat_map f l = flat_map g l.
Proof.
  induction l as [|a l IH]; intros H; simpl; [reflexivity|].
  rewrite H by (left; reflexivity). f_equal.
  apply IH. intros b Hb. apply H. right. exact Hb.
Qed.

Lemma flat_map_single {A B} (f : A -> B) (l : list A) :
  flat_map (fun a => [f a]) l = map f l.
Proof. induction l; simpl; congruence. Qed.

Lemma flat_map_map {A B C} (f : B -> list C) (g : A -> B) (l : list A) :
  flat_map f (map g l) = flat_map (fun a => f (g a)) l.
Proof. induction l; simpl; congruence. Qed.

Lemma map_nth_seq {A} (l : list A) (d : A) :
  map (fun k => nth k l d) (seq 0 (length l)) = l.
Proof.
  induction l as [|a l IH]; simpl; [reflexivity|].
  f_equal. rewrite <- seq_shift, map_map. exact IH.
Qed.

Lemma zip_nth_seq {A B C} (f : A -> B -> C) (l1 : list A) (l2 : list B) :
  length l1 = length l2 ->
  flat_map (fun p => match nth_error l1 p, nth_error l2 p with
                     | Some u, Some v => [f u v]
                     | _, _ => []
                     end) (seq 0 (length l1))
  = map (fun p => f (fst p) (snd p)) (combine l1 l2).
Proof.
  revert l2. induction l1 as [|a l1 IH]; intros [|b l2] H; simpl in *;
    try discriminate; [reflexivity|].
  f_equal. rewrite <- seq_shift, flat_map_map. simpl.
  apply IH. lia.
Qed.

Lemma combine_map_map {X A B} (g : X -> A) (h : X -> B) (xs : list X) :
  combine (map g xs) (map h xs) = map (fun x => (g x, h x)) xs.
Proof. induction xs; simpl; congruence. Qed.

Lemma mapM_ok {A B} (f : A -> res B) (g : A -> B) (l : list A) :
  (forall a, In a l -> f a = Ok (g a)) -> mapM f l = Ok (map g l).
Proof.
  induction l as [|a l IH]; intros H; simpl; [reflexivity|].
  rewrite H by (left; reflexivity). simpl.
  rewrite IH by (intros b Hb; apply H; right; exact Hb). reflexivity.
Qed.

(** ** Arrays of one shape *)

Lemma prod_app (s t : list nat) : prod (s ++ t) = (prod s * prod t)%nat.
Proof. induction s; simpl; [lia|]. rewrite IHs. lia. Qed.

Lemma prod_rev (s : list nat) : prod (rev s) = prod s.
Proof.
  induction s; simpl; [reflexivity|].
  rewrite prod_app, IHs. simpl. lia.
Qed.

Lemma bshape_same (r : list nat) : bshape r r = Some r.
Proof.
  induction r as [|n r IH]; simpl; [reflexivity|].
  rewrite IH, Nat.eqb_refl. reflexivity.
Qed.

Lemma broadcast_shapes_same (s : list nat) : broadcast_shapes s s = Some s.
Proof.
  unfold broadcast_shapes. rewrite bshape_same. simpl.
  rewrite rev_involutive. reflexivity.
Qed.

Lemma bidx_same (r : list nat) : forall p st,
  (p < prod r)%nat -> bidx r r p st = (st * p)%nat.
Proof.
  induction r as [|n r IH]; intros p st H; simpl in *.
  - lia.
  - assert (n <> 0)%nat by (intro; subst; simpl in H; lia).
    assert (Hq : (p / n < prod r)%nat)
      by (apply Nat.Div0.div_lt_upper_bound; lia).
    rewrite (IH _ _ Hq).
    pose proof (Nat.div_mod_eq p n) as E.
    destruct (n =? 1)%nat eqn:E1.
    + apply Nat.eqb_eq in E1. subst n. rewrite Nat.div_1_r. lia.
    + clear Hq E1. set (q := (p / n)%nat) in *. set (m := (p mod n)%nat) in *.
      clearbody q m. subst p. ring.
Qed.

(** Two arrays of one shape combine entry by entry. *)
Lemma ew2_same {A B C} (f : A -> B -> C) (s : list nat) (l1 : list A)
      (l2 : list B) :
  length l1 = prod s -> length l2 = prod s ->
  ew2 f (NdArray s l1) (NdArray s l2)
  = Ok (NdArray s (map (fun p => f (fst p) (snd p)) (combine l1 l2))).
Proof.
  intros H1 H2. unfold ew2. simpl. rewrite broadcast_shapes_same.
  do 2 f_equal. rewrite <- zip_nth_seq by congruence. rewrite H1.
  apply flat_map_ext_in. intros p Hp. apply in_seq in Hp.
  unfold src. simpl. rewrite bidx_same by (rewrite prod_rev; lia).
  rewrite Nat.mul_1_l. reflexivity.
Qed.

Lemma ew2_pw {X A B C} (f : A -> B -> C) s (xs : list X) g h :
  length xs = prod s ->
  ew2 f (pw s xs g) (pw s xs h) = Ok (pw s xs (fun x => f (g x) (h x))).
Proof.
  intros H. unfold pw. rewrite ew2_same by (rewrite length_map; exact H).
  rewrite combine_map_map, map_map. reflexivity.
Qed.

Lemma ew1_pw {X A B} (f : A -> B) s (xs : list X) (g : X -> A) :
  ew1 f (pw s xs g) = pw s xs (fun x => f (g x)).
Proof. unfold ew1, pw. simpl. rewrite map_map. reflexivity. Qed.

Lemma lift2_pw {X} f s (xs : list X) g h :
  length xs = prod s ->
  lift2 f (Ok (pw s xs g)) (Ok (pw s xs h))
  = Ok (pw s xs (fun x => f (g x) (h x))).
Proof. intros H. simpl. apply ew2_pw. exact H. Qed.

Lemma scal_pw {X} f s (xs : list X) g :
  scal f (Ok (pw s xs g)) = Ok (pw s xs (fun x => f (g x))).
Proof. simpl. rewrite ew1_pw. reflexivity. Qed.

Lemma iop_pw {X} f s (xs : list X) (g h : X -> Qc) :
  length xs = prod s ->
  iop f (pw s xs g) (pw s xs h) = Ok (pw s xs (fun x => f (g x) (h x))).
Proof.
  intros H. unfold iop. rewrite ew2_pw by exact H. simpl.
  destruct (list_eq_dec Nat.eq_dec s s); [reflexivity|congruence].
Qed.

(** ** Integer indexing *)

Lemma into_pw {X A} (f : A -> A) s (xs : list X) (g : X -> A) :
  s <> [] -> into f (pw s xs g) = Ok (pw s xs (fun x => f (g x))).
Proof.
  intros H. unfold into. simpl. destruct s; [congruence|].
  rewrite ew1_pw. reflexivity.
Qed.

Lemma take_pw {X A} (a : ndarray A) d0 rest s (xs : list X) (h : X -> Z) :
  shape a = d0 :: rest ->
  (forall x, 0 <= h x < Z.of_nat d0)%Z ->
  take a (pw s xs h)
  = Ok (NdArray (s ++ rest)
          (flat_map (fun x => block (prod rest) (Z.to_nat (h x)) (data a)) xs)).
Proof.
  intros Hs Hh. unfold take. rewrite Hs. simpl.
  rewrite (mapM_ok _ (fun k => block (prod rest) (Z.to_nat k) (data a))).
  - simpl. rewrite <- flat_map_concat_map, flat_map_map. reflexivity.
  - intros k Hk. apply in_map_iff in Hk. destruct Hk as [x [<- _]].
    specialize (Hh x).
    destruct (h x <? 0)%Z eqn:E; [apply Z.ltb_lt in E; lia|].
    replace ((0 <=? h x)%Z && (h x <? Z.of_nat d0)%Z) with true; [reflexivity|].
    symmetry. apply andb_true_iff. split; [apply Z.leb_le|apply Z.ltb_lt]; lia.
Qed.

Lemma block_1_nth (l : list Qc) (k : nat) :
  (k < length l)%nat -> block 1 k l = [nth k l 0].
Proof.
  unfold block. rewrite Nat.mul_1_r. revert k.
  induction l as [|a l IH]; intros k H; simpl in H; [lia|].
  destruct k; simpl.
  - destruct l; reflexivity.
  - apply IH. lia.
Qed.

Lemma take_vec_pw {X} (l : list Qc) s (xs : list X) (h : X -> Z) :
  (forall x, 0 <= h x < Z.of_nat (length l))%Z ->
  take (vec l) (pw s xs h) = Ok (pw s xs (fun x => at_ l (h x))).
Proof.
  intros Hh. rewrite (take_pw (vec l) (d0 := length l) (rest := [])); auto.
  rewrite app_nil_r. unfold pw. do 2 f_equal. simpl.
  rewrite <- flat_map_single. apply flat_map_ext. intros x.
  apply block_1_nth. specialize (Hh x). lia.
Qed.

(** ** The interval index *)

Lemma interval_range (nodes : list Qc) (x : Qc) :
  (2 <= length nodes)%nat ->
  (1 <= interval nodes x <= Z.of_nat (length nodes) - 1)%Z.
Proof. intros H. unfold interval. lia. Qed.

(** ** Queries, entry by entry *)

Lemma size_vec {A} (l : list A) : size (vec l) = length l.
Proof. unfold size. simpl. apply Nat.mul_1_r. Qed.

Lemma find_pw {X} (nodes tbl : list Qc) (c : nat) s (xs : list X) (g : X -> Qc) :
  (2 <= length nodes)%nat -> s <> [] ->
  find (Interp (vec nodes) (NdArray [length nodes; c] tbl)) (pw s xs g)
  = Ok (pw s xs (fun x => at_ nodes (interval nodes (g x) - 1)),
        pw s xs (fun x => at_ nodes (interval nodes (g x))),
        NdArray (s ++ [c])
          (flat_map (fun x => row c tbl (interval nodes (g x) - 1)) xs),
        NdArray (s ++ [c])
          (flat_map (fun x => row c tbl (interval nodes (g x))) xs)).
Proof.
  intros HN Hs. unfold find. cbn [x0 y0].
  unfold searchsorted. cbn [shape vec data]. rewrite size_vec.
  rewrite ew1_pw. cbn [bind].
  rewrite into_pw by exact Hs. cbn [bind].
  rewrite into_pw by exact Hs. cbn [bind].
  rewrite ew1_pw.
  change (fun x => Z.min (Z.max (Z.of_nat (searchsorted_left nodes (g x))) 1)
                         (Z.of_nat (length nodes) - 1))%Z
    with (fun x => interval nodes (g x)).
  change (fun x => Z.min (Z.max (Z.of_nat (searchsorted_left nodes (g x))) 1)
                         (Z.of_nat (length nodes) - 1) - 1)%Z
    with (fun x => interval nodes (g x) - 1)%Z.
  assert (R : forall x, (1 <= interval nodes (g x) <= Z.of_nat (length nodes) - 1)%Z)
    by (intro; apply interval_range; exact HN).
  rewrite !take_vec_pw by (intro x; specialize (R x); lia). cbn [bind].
  rewrite !(take_pw _ (d0 := length nodes) (rest := [c]))
    by (try reflexivity; intro x; specialize (R x); lia).
  cbn [bind data prod fold_right]. unfold row. rewrite Nat.mul_1_r.
  reflexivity.
Qed.

Lemma length_block {A} c k (l : list A) :
  ((k + 1) * c <= length l)%nat -> length (block c k l) = c.
Proof.
  intros H. unfold block. rewrite length_firstn, length_skipn. lia.
Qed.

Lemma block_app_skip {A} (l1 l2 : list A) k :
  block 1 (length l1 + k) (l1 ++ l2) = block 1 k l2.
Proof.
  unfold block. rewrite !Nat.mul_1_r, skipn_app.
  replace (length l1 + k - length l1)%nat with k by lia.
  rewrite skipn_all2 by lia. reflexivity.
Qed.

Lemma block_1_app (l1 l2 : list Qc) j :
  (j < length l1)%nat -> block 1 j (l1 ++ l2) = [nth j l1 0].
Proof.
  unfold block. rewrite Nat.mul_1_r. revert j.
  induction l1 as [|b l IH]; intros j H; simpl in H; [lia|].
  destruct j; simpl.
  - reflexivity.
  - apply IH. lia.
Qed.

Lemma col_rows {X} c j (rowf : X -> list Qc) (xs : list X) :
  (forall x, length (rowf x) = c) -> (j < c)%nat ->
  col (NdArray [length xs; c] (flat_map rowf xs)) j
  = Ok (pw [length xs] xs (fun x => nth j (rowf x) 0)).
Proof.
  intros Hr Hj. unfold col. cbn [shape data prod fold_right].
  apply Nat.ltb_lt in Hj as Hj'. rewrite Hj'. unfold pw. do 2 f_equal.
  induction xs as [|a xs IH]; [reflexivity|].
  cbn [length seq flat_map]. rewrite <- seq_shift, flat_map_map.
  cbn [Nat.mul Nat.add map].
  rewrite block_1_app by (rewrite Hr; exact Hj).
  cbn [app]. f_equal.
  rewrite <- IH. apply flat_map_ext. intros r.
  replace (c + r * c + j)%nat with (length (rowf a) + (r * c + j))%nat
    by (rewrite Hr; lia).
  apply block_app_skip.
Qed.

Lemma length_row (nodes tbl : list Qc) c k :
  (2 <= length nodes)%nat -> length tbl = (length nodes * c)%nat ->
  (0 <= k <= Z.of_nat (length nodes) - 1)%Z ->
  length (row c tbl k) = c.
Proof.
  intros HN Ht Hk. unfold row. apply length_block. rewrite Ht.
  apply Nat.mul_le_mono_r. lia.
Qed.

Ltac pw_side := cbn [prod fold_right]; lia.

Ltac pw_steps :=
  repeat (first [ rewrite col_rows by (auto; lia)
                | rewrite ew2_pw by pw_side
                | rewrite iop_pw by pw_side
                | rewrite ew1_pw ];
          cbn [bind]).

Lemma call_table (nodes tbl : list Qc) c (x : ndarray Qc) :
  (2 <= length nodes)%nat -> length tbl = (length nodes * c)%nat ->
  (1 <= c)%nat -> wf x ->
  __call__ (Interp (vec nodes) (NdArray [length nodes; c] tbl)) x
  = Ok (NdArray (shape x) (map (eval_pt nodes tbl c) (data x))).
Proof.
  intros HN Ht Hc Hx. unfold __call__.
  assert (E : ravel x = pw [length (data x)] (data x) (fun v => v)).
  { unfold ravel, pw. rewrite map_id, Hx. reflexivity. }
  rewrite E. rewrite find_pw by (auto; discriminate).
  cbn [bind app]. unfold lift2, scal, ncols. cbn [bind y0 shape nth_error].
  assert (R : forall v, (1 <= interval nodes v <= Z.of_nat (length nodes) - 1)%Z)
    by (intro; apply interval_range; exact HN).
  assert (La : forall v : Qc, length (row c tbl (interval nodes v - 1)) = c)
    by (intro v; apply (length_row nodes); auto; specialize (R v); lia).
  assert (Lb : forall v : Qc, length (row c tbl (interval nodes v)) = c)
    by (intro v; apply (length_row nodes); auto; specialize (R v); lia).
  pw_steps.
  destruct (c =? 2)%nat eqn:Ec.
  - apply Nat.eqb_eq in Ec. pw_steps.
    unfold reshape, pw, size. cbn [shape data prod fold_right].
    rewrite Nat.mul_1_r, Hx. unfold size. rewrite Nat.eqb_refl.
    do 2 f_equal. apply map_ext. intros v. unfold eval_pt.
    rewrite (proj2 (Nat.eqb_eq c 2) Ec). reflexivity.
  - cbn [bind]. unfold reshape, pw, size. cbn [shape data prod fold_right].
    rewrite Nat.mul_1_r, Hx. unfold size. rewrite Nat.eqb_refl.
    do 2 f_equal. apply map_ext. intros v. unfold eval_pt.
    rewrite Ec. reflexivity.
Qed.

Lemma derivative_table (nodes tbl : list Qc) c (xs : list Qc) :
  (2 <= length nodes)%nat -> length tbl = (length nodes * c)%nat ->
  (1 <= c)%nat ->
  derivative (Interp (vec nodes) (NdArray [length nodes; c] tbl)) (vec xs)
  = Ok (vec (map (deriv_pt nodes tbl c) xs)).
Proof.
  intros HN Ht Hc. unfold derivative.
  assert (E : vec xs = pw [length xs] xs (fun v => v)).
  { unfold vec, pw. rewrite map_id. reflexivity. }
  rewrite E. rewrite find_pw by (auto; discriminate).
  cbn [bind app]. unfold lift2, scal, ncols. cbn [bind y0 shape nth_error].
  assert (R : forall v, (1 <= interval nodes v <= Z.of_nat (length nodes) - 1)%Z)
    by (intro; apply interval_range; exact HN).
  assert (La : forall v : Qc, length (row c tbl (interval nodes v - 1)) = c)
    by (intro v; apply (length_row nodes); auto; specialize (R v); lia).
  assert (Lb : forall v : Qc, length (row c tbl (interval nodes v)) = c)
    by (intro v; apply (length_row nodes); auto; specialize (R v); lia).
  pw_steps.
  destruct (c =? 2)%nat eqn:Ec.
  - apply Nat.eqb_eq in Ec. pw_steps.
    unfold vec, pw. rewrite length_map.
    do 2 f_equal. apply map_ext. intros v. unfold deriv_pt.
    rewrite (proj2 (Nat.eqb_eq c 2) Ec). reflexivity.
  - unfold vec, pw. rewrite length_map.
    do 2 f_equal. apply map_ext. intros v. unfold deriv_pt.
    rewrite Ec. reflexivity.
Qed.

(** ** The constructor and the interval index *)

Lemma assert_increasing (l : list Qc) :
  forallb (fun b : bool => b)
    (map (fun p => Qc_ltb (snd p) (fst p))
         (combine (skipn 1 l) (firstn (length l - 1) l)))
  = increasingb l.
Proof.
  induction l as [|a [|b t] IH]; try reflexivity.
  cbn [length Nat.sub skipn] in *. rewrite Nat.sub_0_r in *.
  cbn [firstn combine map forallb fst snd increasingb].
  f_equal. exact IH.
Qed.

Lemma init_vec solve (nodes samples : list Qc) (type : string) :
  __init__ solve (vec nodes) (vec samples) type
  = if negb (increasingb nodes) then Raise AssertionError
    else if String.eqb type "linear" then
      Ok (Interp (vec nodes) (NdArray [length samples; 1%nat] samples))
    else if String.eqb type "cubic" then
      y0p <- solve (fun yp => cspline_resid yp (vec nodes) (vec samples))
                   (zeros (length samples)) ;;
      y <- transpose2 (vec samples) y0p ;;
      Ok (Interp (vec nodes) y)
    else Raise (ValueError ("interp: unknown type " ++ type)).
Proof.
  unfold __init__, slice_1_, slice__m1. cbn [vec shape data bind prod fold_right].
  rewrite Nat.mul_1_r.
  rewrite ew2_same.
  - cbn [bind]. unfold all. cbn [data]. rewrite assert_increasing, size_vec.
    reflexivity.
  - rewrite length_skipn. cbn [prod fold_right]. lia.
  - rewrite length_firstn. cbn [prod fold_right]. lia.
Qed.

Lemma increasing_tail a (l : list Qc) : increasing (a :: l) -> increasing l.
Proof.
  unfold increasing. destruct l as [|b t]; [reflexivity|].
  cbn [increasingb]. intro H. apply andb_true_iff in H. tauto.
Qed.

Lemma increasing_head a (l : list Qc) k :
  increasing (a :: l) -> (k < length l)%nat -> a < nth k l 0.
Proof.
  revert a k. induction l as [|b t IH]; intros a k H Hk; simpl in Hk; [lia|].
  unfold increasing in H. cbn [increasingb] in H.
  apply andb_true_iff in H. destruct H as [Hab Ht]. apply Qc_ltb_lt in Hab.
  destruct k; [exact Hab|]. simpl.
  apply Qclt_trans with b; [exact Hab|]. apply IH; [exact Ht|lia].
Qed.

Lemma increasing_lt (l : list Qc) i j :
  increasing l -> (i < j < length l)%nat -> nth i l 0 < nth j l 0.
Proof.
  revert i j. induction l as [|a t IH]; intros i j H Hij; simpl in Hij; [lia|].
  destruct j; [lia|]. destruct i; simpl.
  - apply increasing_head; [exact H|lia].
  - apply IH; [exact (increasing_tail H)|lia].
Qed.

Lemma insertion_point_le (l : list Qc) v :
  (insertion_point l v <= length l)%nat.
Proof.
  induction l as [|a t IH]; simpl; [lia|]. destruct (Qc_ltb a v); lia.
Qed.

Lemma insertion_point_below (l : list Qc) v j :
  (j < insertion_point l v)%nat -> nth j l 0 < v.
Proof.
  revert j. induction l as [|a t IH]; intros j H; simpl in H; [lia|].
  destruct (Qc_ltb a v) eqn:E; [|lia].
  destruct j; simpl; [apply Qc_ltb_lt; exact E|]. apply IH. lia.
Qed.

Lemma insertion_point_above (l : list Qc) v :
  (insertion_point l v < length l)%nat -> v <= nth (insertion_point l v) l 0.
Proof.
  induction l as [|a t IH]; intros H; simpl in *; [lia|].
  destruct (Qc_ltb a v) eqn:E.
  - apply IH. lia.
  - apply Qc_ltb_ge. exact E.
Qed.

(** On increasing nodes the insertion point is the only index with
    [l[j-1] < v <= l[j]]. *)
Lemma insertion_point_unique (l : list Qc) v j :
  increasing l -> (j <= length l)%nat ->
  (forall k, (k < j)%nat -> nth k l 0 < v) ->
  ((j < length l)%nat -> v <= nth j l 0) ->
  insertion_point l v = j.
Proof.
  revert j. induction l as [|a t IH]; intros j H Hj Hlo Hhi; simpl in *.
  - lia.
  - destruct (Qc_ltb a v) eqn:E.
    + destruct j.
      * apply Qc_ltb_lt in E. specialize (Hhi ltac:(lia)).
        exfalso. exact (Qcle_not_lt _ _ Hhi E).
      * f_equal. apply IH.
        -- exact (increasing_tail H).
        -- lia.
        -- intros k Hk. apply (Hlo (S k)). lia.
        -- intros Hj'. apply Hhi. lia.
    + destruct j; [reflexivity|].
      apply Qc_ltb_ge in E. specialize (Hlo 0%nat ltac:(lia)). simpl in Hlo.
      exfalso. exact (Qcle_not_lt _ _ E Hlo).
Qed.

Lemma insertion_point_node (l : list Qc) k :
  increasing l -> (k < length l)%nat -> insertion_point l (nth k l 0) = k.
Proof.
  intros H Hk. apply insertion_point_unique; auto.
  - lia.
  - intros j Hj. apply increasing_lt; auto.
  - intros _. apply Qcle_refl.
Qed.

(** On a sorted list the binary search returns the leftmost insertion
    point. *)
Lemma bisect_left_spec (a : list Qc) (v : Qc) :
  increasing a ->
  forall fuel lo hi,
    (hi - lo <= fuel)%nat ->
    (lo <= insertion_point a v <= hi)%nat -> (hi <= length a)%nat ->
    bisect_left fuel a v lo hi = insertion_point a v.
Proof.
  intros Hinc. induction fuel as [|fuel IH]; intros lo hi Hf Hip Hhi;
    cbn [bisect_left].
  - lia.
  - destruct (lo <? hi)%nat eqn:E; [|apply Nat.ltb_ge in E; lia].
    apply Nat.ltb_lt in E.
    assert (Hm : (lo <= lo + (hi - lo) / 2 < hi)%nat).
    { split; [lia|]. pose proof (Nat.Div0.div_lt_upper_bound (hi - lo) 2 (hi - lo)).
      lia. }
    set (mid := (lo + (hi - lo) / 2)%nat) in *.
    destruct (Qc_ltb (nth mid a 0) v) eqn:Ev.
    + apply Qc_ltb_lt in Ev. apply IH; [lia| |lia].
      split; [|lia].
      destruct (Nat.le_gt_cases (insertion_point a v) mid) as [Hle|Hgt]; [|lia].
      exfalso.
      assert (Hab : v <= nth (insertion_point a v) a 0)
        by (apply insertion_point_above; lia).
      apply (Qcle_not_lt _ _ Hab).
      destruct (Nat.eq_dec (insertion_point a v) mid) as [->|Hne]; [exact Ev|].
      apply Qclt_trans with (nth mid a 0); [|exact Ev].
      apply increasing_lt; [exact Hinc|lia].
    + apply Qc_ltb_ge in Ev. apply IH; [lia| |lia].
      split; [lia|].
      destruct (Nat.le_gt_cases (insertion_point a v) mid) as [Hle|Hgt]; [lia|].
      exfalso. apply (Qcle_not_lt _ _ Ev).
      apply insertion_point_below. lia.
Qed.

Lemma searchsorted_left_spec (a : list Qc) (v : Qc) :
  increasing a -> searchsorted_left a v = insertion_point a v.
Proof.
  intros H. unfold searchsorted_left. apply bisect_left_spec; auto.
  - lia.
  - pose proof (insertion_point_le a v). lia.
Qed.

Lemma interval_insertion_point (l : list Qc) x :
  increasing l ->
  interval l x = Z.min (Z.max (Z.of_nat (insertion_point l x)) 1)
                       (Z.of_nat (length l) - 1).
Proof.
  intros H. unfold interval. rewrite searchsorted_left_spec by exact H.
  reflexivity.
Qed.

Lemma interval_node (l : list Qc) k :
  increasing l -> (2 <= length l)%nat -> (k < length l)%nat ->
  interval l (nth k l 0) = Z.max (Z.of_nat k) 1.
Proof.
  intros H HN Hk.
  rewrite interval_insertion_point, insertion_point_node by auto. lia.
Qed.

(** The two nodes [find] returns are distinct and in order. *)
Lemma interval_width (l : list Qc) x :
  increasing l -> (2 <= length l)%nat ->
  at_ l (interval l x - 1) < at_ l (interval l x).
Proof.
  intros H HN. pose proof (interval_range l x HN) as R. unfold at_.
  apply increasing_lt; [exact H|]. lia.
Qed.

Ltac qc_norm := cbn [num of_pos Qcpower].

Lemma eval_pt_node (nodes tbl : list Qc) c k :
  increasing nodes -> (2 <= length nodes)%nat -> (k < length nodes)%nat ->
  eval_pt nodes tbl c (nth k nodes 0) = nth 0 (row c tbl (Z.of_nat k)) 0.
Proof.
  intros H HN Hk. unfold eval_pt. rewrite interval_node by auto.
  destruct k as [|k].
  - change (Z.max (Z.of_nat 0) 1) with 1%Z. change (1 - 1)%Z with 0%Z.
    change (Z.of_nat 0) with 0%Z.
    change (at_ nodes 0) with (nth 0 nodes 0).
    assert (D : at_ nodes 1 - nth 0 nodes 0 <> 0).
    { apply Qc_lt_minus_nz. apply (increasing_lt (i := 0) (j := 1)); [exact H|lia]. }
    revert D. generalize (at_ nodes 1) (nth 0 nodes 0) (row c tbl 0) (row c tbl 1).
    intros xb xa ra rb D. cbv zeta. destruct (c =? 2)%nat; qc_norm; field; exact D.
  - replace (Z.max (Z.of_nat (S k)) 1) with (Z.of_nat (S k)) by lia.
    assert (D : nth (S k) nodes 0 - at_ nodes (Z.of_nat (S k) - 1) <> 0).
    { apply Qc_lt_minus_nz. unfold at_. apply increasing_lt; [exact H|lia]. }
    replace (at_ nodes (Z.of_nat (S k))) with (nth (S k) nodes 0)
      by (unfold at_; rewrite Nat2Z.id; reflexivity).
    revert D.
    generalize (nth (S k) nodes 0) (at_ nodes (Z.of_nat (S k) - 1))
               (row c tbl (Z.of_nat (S k) - 1)) (row c tbl (Z.of_nat (S k))).
    intros xb xa ra rb D. cbv zeta. destruct (c =? 2)%nat; qc_norm; field; exact D.
Qed.

Lemma deriv_pt_node (nodes tbl : list Qc) k :
  increasing nodes -> (2 <= length nodes)%nat -> (k < length nodes)%nat ->
  deriv_pt nodes tbl 2 (nth k nodes 0) = nth 1 (row 2 tbl (Z.of_nat k)) 0.
Proof.
  intros H HN Hk. unfold deriv_pt. rewrite interval_node by auto.
  cbn [Nat.eqb].
  destruct k as [|k].
  - change (Z.max (Z.of_nat 0) 1) with 1%Z. change (1 - 1)%Z with 0%Z.
    change (Z.of_nat 0) with 0%Z.
    change (at_ nodes 0) with (nth 0 nodes 0).
    assert (D : at_ nodes 1 - nth 0 nodes 0 <> 0).
    { apply Qc_lt_minus_nz. apply (increasing_lt (i := 0) (j := 1)); [exact H|lia]. }
    revert D. generalize (at_ nodes 1) (nth 0 nodes 0) (row 2 tbl 0) (row 2 tbl 1).
    intros xb xa ra rb D. cbv zeta. qc_norm; field; exact D.
  - replace (Z.max (Z.of_nat (S k)) 1) with (Z.of_nat (S k)) by lia.
    assert (D : nth (S k) nodes 0 - at_ nodes (Z.of_nat (S k) - 1) <> 0).
    { apply Qc_lt_minus_nz. unfold at_. apply increasing_lt; [exact H|lia]. }
    replace (at_ nodes (Z.of_nat (S k))) with (nth (S k) nodes 0)
      by (unfold at_; rewrite Nat2Z.id; reflexivity).
    revert D.
    generalize (nth (S k) nodes 0) (at_ nodes (Z.of_nat (S k) - 1))
               (row 2 tbl (Z.of_nat (S k) - 1)) (row 2 tbl (Z.of_nat (S k))).
    intros xb xa ra rb D. cbv zeta. qc_norm; field; exact D.
Qed.

(** ** What the constructor stores *)

Lemma nth_row_1 (l : list Qc) k : nth 0 (row 1 l (Z.of_nat k)) 0 = nth k l 0.
Proof.
  unfold row, block. rewrite Nat2Z.id, Nat.mul_1_r. revert k.
  induction l as [|a l IH]; intros [|k]; cbn [skipn]; try reflexivity.
  apply IH.
Qed.

Lemma row_interleave (u v : list Qc) k :
  (k < length u)%nat -> (k < length v)%nat ->
  row 2 (interleave u v) (Z.of_nat k) = [nth k u 0; nth k v 0].
Proof.
  unfold row, block, interleave. rewrite Nat2Z.id. revert v k.
  induction u as [|a u IH]; intros [|b v] k Hu Hv; simpl in Hu, Hv; try lia.
  destruct k; [reflexivity|].
  replace (S k * 2)%nat with (S (S (k * 2))) by lia.
  cbn [combine flat_map fst snd app skipn nth]. apply IH; lia.
Qed.

Lemma length_interleave (u v : list Qc) :
  length u = length v -> length (interleave u v) = (length u * 2)%nat.
Proof.
  intros H. unfold interleave.
  rewrite (flat_map_constant_length (c := 2)) by reflexivity.
  rewrite length_combine. lia.
Qed.

(** What a successful construction from two lists stores. *)
Lemma init_inv solve (nodes samples : list Qc) kind itp :
  length samples = length nodes ->
  __init__ solve (vec nodes) (vec samples) kind = Ok itp ->
  wf (y0 itp) ->
  increasing nodes
  /\ ((kind = "linear"%string
       /\ itp = Interp (vec nodes) (NdArray [length nodes; 1%nat] samples))
      \/ (kind = "cubic"%string
          /\ exists yp, length yp = length nodes
             /\ itp = Interp (vec nodes)
                        (NdArray [length nodes; 2%nat] (interleave samples yp)))).
Proof.
  intros HL. rewrite init_vec. unfold increasing.
  destruct (increasingb nodes); cbn [negb]; [|discriminate].
  destruct (String.eqb kind "linear") eqn:E1.
  - apply String.eqb_eq in E1. intros H _. inversion H. rewrite HL. auto.
  - destruct (String.eqb kind "cubic") eqn:E2; [|discriminate].
    apply String.eqb_eq in E2.
    destruct (solve _ _) as [y0p|e]; cbn [bind]; [|discriminate].
    unfold transpose2. cbn [vec shape data].
    destruct (shape y0p) as [|m [|? ?]]; try discriminate.
    destruct (length samples =? m)%nat eqn:Em; cbn [bind]; [|discriminate].
    intros H W. inversion H. subst itp. clear H. split; [reflexivity|].
    right. split; [exact E2|].
    unfold wf, size, interleave in W. cbn [y0 shape data prod fold_right] in W.
    rewrite (flat_map_constant_length (c := 2)) in W by reflexivity.
    rewrite length_combine in W.
    exists (firstn (length samples) (data y0p)). split.
    + rewrite length_firstn. lia.
    + rewrite HL. unfold interleave.
      rewrite <- HL, <- combine_firstn_l. reflexivity.
Qed.

Lemma wf_vec {A} (l : list A) : wf (vec l).
Proof. unfold wf. rewrite size_vec. reflexivity. Qed.

Lemma map_eq_nth (f : Qc -> Qc) (l r : list Qc) :
  length l = length r ->
  (forall k, (k < length l)%nat -> f (nth k l 0) = nth k r 0) ->
  map f l = r.
Proof.
  intros HL H. apply (nth_ext _ _ (f 0) 0).
  - rewrite length_map. exact HL.
  - intros k Hk. rewrite length_map in Hk. rewrite map_nth. apply H. exact Hk.
Qed.

Lemma map_snd_combine' {A B} (u : list A) (v : list B) :
  length u = length v -> map snd (combine u v) = v.
Proof.
  revert v. induction u as [|a u IH]; intros [|b v] H; simpl in *;
    try discriminate; [reflexivity|].
  f_equal. apply IH. lia.
Qed.

Lemma call_nodes_linear (nodes samples : list Qc) :
  increasing nodes -> (2 <= length nodes)%nat ->
  length samples = length nodes ->
  __call__ (Interp (vec nodes) (NdArray [length nodes; 1%nat] samples))
           (vec nodes)
  = Ok (vec samples).
Proof.
  intros Hinc HN HL.
  rewrite call_table; [|lia|lia|lia|apply wf_vec].
  cbn [vec shape data]. unfold vec. rewrite HL. do 2 f_equal.
  apply map_eq_nth; [congruence|]. intros k Hk.
  rewrite eval_pt_node by auto. apply nth_row_1.
Qed.

Lemma call_nodes_cubic (nodes samples yp : list Qc) :
  increasing nodes -> (2 <= length nodes)%nat ->
  length samples = length nodes -> length yp = length nodes ->
  __call__ (Interp (vec nodes)
              (NdArray [length nodes; 2%nat] (interleave samples yp)))
           (vec nodes)
  = Ok (vec samples).
Proof.
  intros Hinc HN HL Hyp.
  rewrite call_table;
    [|lia|rewrite length_interleave; lia|lia|apply wf_vec].
  cbn [vec shape data]. unfold vec. rewrite HL. do 2 f_equal.
  apply map_eq_nth; [congruence|]. intros k Hk.
  rewrite eval_pt_node by auto.
  rewrite row_interleave by lia. reflexivity.
Qed.

Lemma col_interleave_1 (u v : list Qc) :
  length u = length v ->
  col (NdArray [length u; 2%nat] (interleave u v)) 1 = Ok (vec v).
Proof.
  intros H. unfold interleave.
  replace (length u) with (length (combine u v))
    by (rewrite length_combine; lia).
  rewrite col_rows by (auto; lia).
  unfold pw, vec. cbn [nth].
  change (fun x : Qc * Qc => snd x) with (@snd Qc Qc).
  rewrite map_snd_combine' by lia.
  rewrite length_combine. do 3 f_equal. lia.
Qed.





Lemma init_linear_inv solve (nodes samples : list Qc) itp :
  __init__ solve (vec nodes) (vec samples) "linear" = Ok itp ->
  increasing nodes
  /\ itp = Interp (vec nodes) (NdArray [length samples; 1%nat] samples).
Proof.
  rewrite init_vec. unfold increasing.
  destruct (increasingb nodes); cbn [negb String.eqb Ascii.eqb Bool.eqb];
    [|discriminate].
  intros H. inversion H. auto.
Qed.

Lemma nth_row_1_Z (l : list Qc) k :
  (0 <= k)%Z -> nth 0 (row 1 l k) 0 = at_ l k.
Proof.
  intros H. rewrite <- (Z2Nat.id k H) at 1. apply nth_row_1.
Qed.

Lemma at_map (f : Qc -> Qc) (l : list Qc) k :
  (0 <= k < Z.of_nat (length l))%Z -> at_ (map f l) k = f (at_ l k).
Proof.
  intros H. unfold at_. rewrite (nth_indep _ 0 (f 0)) by (rewrite length_map; lia).
  apply map_nth.
Qed.



(** ** The interval located by [find] *)

Lemma insertion_point_ge (l : list Qc) v j :
  (j <= length l)%nat -> (forall k, (k < j)%nat -> nth k l 0 < v) ->
  (j <= insertion_point l v)%nat.
Proof.
  revert j. induction l as [|a t IH]; intros j Hj H; simpl in *; [lia|].
  destruct j; [lia|].
  pose proof (H 0%nat ltac:(lia)) as H0. simpl in H0.
  apply Qc_ltb_lt in H0. rewrite H0. apply le_n_S. apply IH; [lia|].
  intros k Hk. apply (H (S k)). lia.
Qed.

Lemma insertion_point_first (l : list Qc) v :
  v <= nth 0 l 0 -> (1 <= length l)%nat -> insertion_point l v = 0%nat.
Proof.
  destruct l as [|a t]; simpl; intros H HN; [lia|].
  apply Qc_ltb_ge in H. rewrite H. reflexivity.
Qed.

Lemma interval_props (nodes : list Qc) (x : Qc) :
  increasing nodes -> (2 <= length nodes)%nat ->
  let i := interval nodes x in
  let N := Z.of_nat (length nodes) in
  (1 <= i <= N - 1)%Z
  /\ (x <= at_ nodes 0 -> i = 1%Z)
  /\ (at_ nodes (N - 1) <= x -> i = (N - 1)%Z)
  /\ (at_ nodes 0 < x /\ x <= at_ nodes (N - 1) ->
      at_ nodes (i - 1) < x /\ x <= at_ nodes i)
  /\ (forall j, (1 <= j <= N - 1)%Z ->
      at_ nodes (j - 1) < x /\ x <= at_ nodes j -> j = i).
Proof.
  intros Hinc HN i N.
  pose proof (insertion_point_le nodes x) as Hle.
  pose proof (interval_insertion_point x Hinc) as Ei0.
  split; [apply interval_range; exact HN|].
  split; [|split; [|split]].
  - intros H. unfold i. rewrite Ei0.
    rewrite insertion_point_first; [lia|exact H|lia].
  - intros H. unfold i. rewrite Ei0.
    assert (G : (length nodes - 1 <= insertion_point nodes x)%nat).
    { apply insertion_point_ge; [lia|]. intros k Hk.
      apply Qclt_le_trans with (at_ nodes (N - 1)); [|exact H].
      unfold at_, N. apply increasing_lt; [exact Hinc|lia]. }
    lia.
  - intros [Hlo Hhi].
    assert (G1 : (1 <= insertion_point nodes x)%nat).
    { apply insertion_point_ge; [lia|]. intros k Hk.
      replace k with 0%nat by lia. exact Hlo. }
    assert (G2 : (insertion_point nodes x <= length nodes - 1)%nat).
    { destruct (Nat.eq_dec (insertion_point nodes x) (length nodes)) as [E|E];
        [|lia].
      exfalso. apply (Qcle_not_lt _ _ Hhi).
      unfold at_, N. apply insertion_point_below. lia. }
    assert (Ei : i = Z.of_nat (insertion_point nodes x))
      by (unfold i; rewrite Ei0; lia).
    rewrite Ei. unfold at_. rewrite Nat2Z.id. split.
    + apply insertion_point_below. lia.
    + apply insertion_point_above. lia.
  - intros j Hj [Hlo Hhi]. unfold i. rewrite Ei0.
    rewrite (@insertion_point_unique nodes x (Z.to_nat j));
      [lia|exact Hinc|lia| |intros _; exact Hhi].
    intros k Hk.
    destruct (Nat.eq_dec k (Z.to_nat (j - 1))) as [->|Hne]; [exact Hlo|].
    apply Qclt_trans with (at_ nodes (j - 1)); [|exact Hlo].
    unfold at_. apply increasing_lt; [exact Hinc|lia].
Qed.

Lemma find_table (nodes tbl : list Qc) (c : nat) (q : ndarray Qc) :
  (2 <= length nodes)%nat -> shape q <> [] ->
  find (Interp (vec nodes) (NdArray [length nodes; c] tbl)) q
  = Ok (NdArray (shape q)
          (map (fun x => at_ nodes (interval nodes x - 1)) (data q)),
        NdArray (shape q) (map (fun x => at_ nodes (interval nodes x)) (data q)),
        NdArray (shape q ++ [c])
          (flat_map (fun x => row c tbl (interval nodes x - 1)) (data q)),
        NdArray (shape q ++ [c])
          (flat_map (fun x => row c tbl (interval nodes x)) (data q))).
Proof.
  intros HN Hs.
  assert (E : q = pw (shape q) (data q) (fun v => v)).
  { destruct q. unfold pw. cbn [shape data]. rewrite map_id. reflexivity. }
  rewrite E at 1. rewrite find_pw by assumption. reflexivity.
Qed.

(** C3, as amended.  [find] places a query value [x] by binary search,
    which returns the leftmost insertion point of [x] among the nodes,
    clamps the index into [1, N-1], and returns the two bounding nodes and
    their rows of the value table without raising.  The index [i] is 1 for
    [x <= nodes[0]] and [N-1] for [x >= nodes[N-1]]; for
    [nodes[0] < x <= nodes[N-1]] it is the unique index with
    [nodes[i-1] < x <= nodes[i]]: the interval is closed on the right, not
    on the left. *)
Theorem find_interval solve (nodes samples : list Qc) kind itp (xs : list Qc) :
  (2 <= length nodes)%nat ->
  length samples = length nodes ->
  __init__ solve (vec nodes) (vec samples) kind = Ok itp ->
  wf (y0 itp) ->
  let N := Z.of_nat (length nodes) in
  let c := nth 1 (shape (y0 itp)) 0%nat in
  find itp (vec xs)
  = Ok (vec (map (fun x => at_ nodes (interval nodes x - 1)) xs),
        vec (map (fun x => at_ nodes (interval nodes x)) xs),
        NdArray [length xs; c]
          (flat_map (fun x => row c (data (y0 itp)) (interval nodes x - 1)) xs),
        NdArray [length xs; c]
          (flat_map (fun x => row c (data (y0 itp)) (interval nodes x)) xs))
  /\ forall x,
       let i := interval nodes x in
       i = Z.min (Z.max (Z.of_nat (insertion_point nodes x)) 1) (N - 1)
       /\ (1 <= i <= N - 1)%Z
       /\ (x <= at_ nodes 0 -> i = 1%Z)
       /\ (at_ nodes (N - 1) <= x -> i = (N - 1)%Z)
       /\ (at_ nodes 0 < x /\ x <= at_ nodes (N - 1) ->
           at_ nodes (i - 1) < x /\ x <= at_ nodes i)
       /\ (forall j, (1 <= j <= N - 1)%Z ->
           at_ nodes (j - 1) < x /\ x <= at_ nodes j -> j = i).
Proof.
  intros HN HL Hi W N c.
  destruct (@init_inv solve nodes samples kind itp HL Hi W)
    as [Hinc [[_ ->]|[_ [yp [Hyp ->]]]]]; (split;
    [ rewrite find_table by (auto; discriminate);
      unfold vec; rewrite !length_map; reflexivity
    | intros x; split;
      [apply interval_insertion_point|apply interval_props]; assumption ]).
Qed.

Lemma find_interval_witness :
  find linear3 (vec [num 1])
  = Ok (vec [num 0], vec [num 1],
        NdArray [1; 1]%nat [num 0], NdArray [1; 1]%nat [num 1])
  /\ (at_ nodes3 0 < frac 3 2 /\ frac 3 2 <= at_ nodes3 2 ->
      at_ nodes3 (interval nodes3 (frac 3 2) - 1) < frac 3 2
      /\ frac 3 2 <= at_ nodes3 (interval nodes3 (frac 3 2))).
Proof.
  destruct (@find_interval solve0 nodes3 samples3 "linear" linear3 [num 1])
    as [F P]; [simpl; lia | reflexivity | reflexivity | reflexivity |].
  split; [exact F|]. exact (proj1 (proj2 (proj2 (proj2 (proj2 (P (frac 3 2))))))).
Defined.

Lemma find_half_open_counterexample :
  exists xa xb ya yb,
    find linear3 (vec [num 1]) = Ok (xa, xb, ya, yb)
    /\ ~ (nth 0 (data xa) 0 <= num 1 /\ num 1 < nth 0 (data xb) 0).
Proof.
  exists (vec [num 0]), (vec [num 1]),
         (NdArray [1; 1]%nat [num 0]), (NdArray [1; 1]%nat [num 1]).
  split; [reflexivity|]. intros [_ H]. discriminate H.
Qed.



(** ** The continuity residual *)

Lemma vec_pw_seq (l : list Qc) n :
  length l = n -> vec l = pw [n] (seq 0 n) (fun k => nth k l 0).
Proof. intros <-. unfold vec, pw. rewrite map_nth_seq. reflexivity. Qed.

Lemma slice_1_pw {A} (g : nat -> A) n :
  slice_1_ (pw [S n] (seq 0 (S n)) g) = Ok (pw [n] (seq 0 n) (fun k => g (S k))).
Proof.
  unfold slice_1_, pw. cbn [shape data prod fold_right seq map skipn].
  replace (S n - 1)%nat with n by lia.
  rewrite <- seq_shift, map_map. reflexivity.
Qed.

Lemma slice__m1_pw {A} (g : nat -> A) n :
  slice__m1 (pw [S n] (seq 0 (S n)) g) = Ok (pw [n] (seq 0 n) g).
Proof.
  unfold slice__m1, pw. cbn [shape data prod fold_right].
  replace (S n - 1)%nat with n by lia. rewrite Nat.mul_1_r.
  rewrite seq_S, map_app.
  rewrite firstn_app, length_map, length_seq, Nat.sub_diag. cbn [firstn].
  rewrite app_nil_r, firstn_all2 by (rewrite length_map, length_seq; lia).
  reflexivity.
Qed.

Lemma slice__1_pw {A} (g : nat -> A) n :
  slice__1 (pw [S n] (seq 0 (S n)) g) = Ok (vec [g 0%nat]).
Proof. reflexivity. Qed.

Lemma slice_m1__pw {A} (g : nat -> A) n :
  slice_m1_ (pw [S n] (seq 0 (S n)) g) = Ok (vec [g n]).
Proof.
  unfold slice_m1_, pw. cbn [shape data prod fold_right Nat.min].
  replace (S n - 1)%nat with n by lia. rewrite Nat.mul_1_r.
  rewrite seq_S, map_app, skipn_app, length_map, length_seq, Nat.sub_diag.
  rewrite skipn_all2 by (rewrite length_map, length_seq; lia).
  reflexivity.
Qed.

Ltac seq_side := cbn [prod fold_right]; rewrite length_seq; lia.

Lemma resid_closed (yp x y : list Qc) m :
  length x = S (S m) -> length y = S (S m) -> length yp = S (S m) ->
  cspline_resid (vec yp) (vec x) (vec y)
  = Ok (vec (spec_curv_L yp x y 0
             :: map (fun k => spec_curv_L yp x y (S k) - spec_curv_R yp x y k)
                    (seq 0 m)
             ++ [- spec_curv_R yp x y m])).
Proof.
  intros Hx Hy Hyp. unfold cspline_resid.
  rewrite (vec_pw_seq x Hx), (vec_pw_seq y Hy), (vec_pw_seq yp Hyp).
  rewrite !slice_1_pw, !slice__m1_pw. unfold lift2, scal. cbn [bind].
  repeat (first [ rewrite ew2_pw by seq_side | rewrite ew1_pw ]; cbn [bind]).
  rewrite slice__1_pw, slice_1_pw, slice__m1_pw, slice_m1__pw. cbn [bind].
  repeat (first [ rewrite ew2_pw by seq_side | rewrite ew1_pw ]; cbn [bind]).
  unfold hstack, atleast_1d, ew1, vec, pw.
  cbn [map shape data forallb ndim length Nat.eqb andb concat app].
  reflexivity.
Qed.

Lemma length_resid_closed (f : nat -> Qc) (a b : Qc) m :
  length (a :: map f (seq 0 m) ++ [b]) = S (S m).
Proof.
  cbn [length]. rewrite length_app, length_map, length_seq. simpl. lia.
Qed.

Lemma nth_resid_closed (f : nat -> Qc) (a b : Qc) m i :
  nth i (a :: map f (seq 0 m) ++ [b]) 0
  = match i with
    | O => a
    | S j => if (j <? m)%nat then f j else if (j =? m)%nat then b else 0
    end.
Proof.
  destruct i as [|j]; [reflexivity|]. cbn [nth].
  destruct (j <? m)%nat eqn:E.
  - apply Nat.ltb_lt in E.
    rewrite app_nth1 by (rewrite length_map, length_seq; exact E).
    rewrite (nth_indep _ 0 (f 0%nat)) by (rewrite length_map, length_seq; exact E).
    rewrite map_nth, seq_nth by exact E. reflexivity.
  - apply Nat.ltb_ge in E.
    rewrite app_nth2 by (rewrite length_map, length_seq; exact E).
    rewrite length_map, length_seq.
    destruct (j =? m)%nat eqn:E2.
    + apply Nat.eqb_eq in E2. subst. rewrite Nat.sub_diag. reflexivity.
    + apply Nat.eqb_neq in E2.
      destruct (j - m)%nat as [|[|?]] eqn:E3; try reflexivity. lia.
Qed.

(** C1.  The continuity residual, entry by entry.  For strictly increasing
    nodes [x] of length [N >= 2], samples [y] and a candidate derivative
    vector [yp], both of length [N], [cspline_resid] returns a vector [r] of
    length [N] with [r_0 = curv_L_0], [r_i = curv_L_i - curv_R_(i-1)] for
    [1 <= i <= N-2] and [r_(N-1) = - curv_R_(N-2)], where [curv_L] and
    [curv_R] are the curvature terms in the specification's words
    ([spec_curv_L], [spec_curv_R]).  Monotonicity keeps every [dx_k] away
    from zero; the identity itself does not depend on it. *)
Theorem cspline_resid_entries (yp x y : list Qc) :
  let N := length x in
  (2 <= N)%nat -> increasing x -> length y = N -> length yp = N ->
  exists r,
    cspline_resid (vec yp) (vec x) (vec y) = Ok (vec r)
    /\ length r = N
    /\ nth 0 r 0 = spec_curv_L yp x y 0
    /\ (forall i, (1 <= i <= N - 2)%nat ->
          nth i r 0 = spec_curv_L yp x y i - spec_curv_R yp x y (i - 1))
    /\ nth (N - 1) r 0 = - spec_curv_R yp x y (N - 2).
Proof.
  intros N HN _ Hy Hyp.
  destruct N as [|[|m]] eqn:EN; try lia. unfold N in EN.
  eexists. split; [apply (resid_closed yp x y (m := m)); congruence|].
  split; [apply length_resid_closed|].
  split; [reflexivity|]. split.
  - intros i Hi. rewrite nth_resid_closed. destruct i as [|j]; [lia|].
    replace (j <? m)%nat with true by (symmetry; apply Nat.ltb_lt; lia).
    replace (S j - 1)%nat with j by lia. reflexivity.
  - rewrite nth_resid_closed.
    replace (S (S m) - 1)%nat with (S m) by lia.
    rewrite Nat.ltb_irrefl, Nat.eqb_refl.
    replace (S (S m) - 2)%nat with m by lia. reflexivity.
Qed.


Lemma cspline_resid_entries_witness :
  exists r,
    cspline_resid (vec yp4) (vec nodes4) (vec samples4) = Ok (vec r)
    /\ length r = 4%nat
    /\ nth 0 r 0 = spec_curv_L yp4 nodes4 samples4 0
    /\ (forall i, (1 <= i <= 4 - 2)%nat ->
          nth i r 0 = spec_curv_L yp4 nodes4 samples4 i
                      - spec_curv_R yp4 nodes4 samples4 (i - 1))
    /\ nth (4 - 1) r 0 = - spec_curv_R yp4 nodes4 samples4 (4 - 2).
Proof.
  apply (@cspline_resid_entries yp4 nodes4 samples4);
    [simpl; lia | reflexivity | reflexivity | reflexivity].
Defined.

Lemma nth_mix (a : Qc) (u v : list Qc) k :
  length u = length v ->
  nth k (mix a u v) 0 = a * nth k u 0 + (1 - a) * nth k v 0.
Proof.
  unfold mix. revert v k.
  induction u as [|p u IH]; intros [|q v] k H; simpl in H; try discriminate.
  - destruct k; simpl; ring.
  - destruct k; simpl; [reflexivity|]. apply IH. lia.
Qed.

Lemma length_mix (a : Qc) (u v : list Qc) :
  length u = length v -> length (mix a u v) = length u.
Proof.
  intros H. unfold mix. rewrite length_map, length_combine. lia.
Qed.

Lemma spec_curv_L_mix (a : Qc) (u v x y : list Qc) k :
  length u = length v ->
  spec_curv_L (mix a u v) x y k
  = a * spec_curv_L u x y k + (1 - a) * spec_curv_L v x y k.
Proof.
  intros H. unfold spec_curv_L. rewrite !nth_mix by exact H.
  unfold Qcdiv. ring.
Qed.

Lemma spec_curv_R_mix (a : Qc) (u v x y : list Qc) k :
  length u = length v ->
  spec_curv_R (mix a u v) x y k
  = a * spec_curv_R u x y k + (1 - a) * spec_curv_R v x y k.
Proof.
  intros H. unfold spec_curv_R. rewrite !nth_mix by exact H.
  unfold Qcdiv. ring.
Qed.

Lemma nth_repeat_0 n k : nth k (repeat (0 : Qc) n) 0 = 0.
Proof.
  revert k. induction n; intros [|k]; simpl; auto.
Qed.



(** ** The cubic scenario *)

Ltac qc_compute := apply Qc_is_canon; vm_compute; reflexivity.

Lemma Qc_solve (a b c r : Qc) :
  a * b = c -> Qc_eqb a 0 = false -> r = c / a -> b = r.
Proof.
  intros H Ha ->. rewrite <- H. field.
  intro E. apply Qc_eqb_eq in E. congruence.
Qed.

Lemma root4_unique (yp : list Qc) :
  length yp = 4%nat ->
  root_stored (Interp (vec nodes4) (NdArray [4; 2]%nat (interleave samples4 yp)))
              (vec nodes4) (vec samples4) = true ->
  yp = yp4.
Proof.
  intros HL. unfold root_stored. cbn [y0].
  change 4%nat with (length samples4) at 1.
  rewrite col_interleave_1 by (rewrite HL; reflexivity).
  rewrite (resid_closed yp nodes4 samples4 (m := 2)) by (auto; reflexivity).
  cbn [data vec seq map app forallb].
  destruct yp as [|p0 [|p1 [|p2 [|p3 [|? ?]]]]]; try discriminate HL.
  unfold spec_curv_L, spec_curv_R.
  assert (D0 : spec_dx nodes4 0 = 1) by qc_compute.
  assert (D1 : spec_dx nodes4 1 = 1) by qc_compute.
  assert (D2 : spec_dx nodes4 2 = 1) by qc_compute.
  assert (S0 : spec_slope nodes4 samples4 0 = 1) by qc_compute.
  assert (S1 : spec_slope nodes4 samples4 1 = - (1)) by qc_compute.
  assert (S2 : spec_slope nodes4 samples4 2 = 1) by qc_compute.
  rewrite D0, D1, D2, S0, S1, S2. cbn [nth].
  intros H. repeat (apply andb_true_iff in H; destruct H as [?H H]).
  repeat match goal with
         | E : Qc_eqb _ _ = true |- _ => apply Qc_eqb_eq in E
         end.
  clear H HL D0 D1 D2 S0 S1 S2. unfold yp4.
  assert (E0 : p0 = frac 5 3 /\ p1 = frac (-1) 3
               /\ p2 = frac (-1) 3 /\ p3 = frac 5 3).
  { match type of H0 with _ = ?r0 =>
    match type of H1 with _ = ?r1 =>
    match type of H2 with _ = ?r2 =>
    match type of H3 with _ = ?r3 =>
      assert (E0 : num 90 * p0
                   = num 150 - (num 26 * r0 - num 7 * r1 + num 2 * r2 - r3))
        by (cbn [num of_pos]; field; discriminate);
      assert (E1 : num 90 * p1
                   = num (-30) - (num 14 * r1 - num 7 * r0 - num 4 * r2
                                  + num 2 * r3))
        by (cbn [num of_pos]; field; discriminate);
      assert (E2 : num 90 * p2
                   = num (-30) - (num 2 * r0 - num 4 * r1 + num 14 * r2
                                  - num 7 * r3))
        by (cbn [num of_pos]; field; discriminate);
      assert (E3 : num 90 * p3
                   = num 150 - (num 2 * r1 - r0 - num 7 * r2 + num 26 * r3))
        by (cbn [num of_pos]; field; discriminate)
    end end end end.
    rewrite <- H0, <- H1, <- H2, <- H3 in E0, E1, E2, E3.
    repeat split;
      [ apply (Qc_solve E0) | apply (Qc_solve E1)
      | apply (Qc_solve E2) | apply (Qc_solve E3) ];
      first [ reflexivity | qc_compute ]. }
  destruct E0 as [-> [-> [-> ->]]]. reflexivity.
Qed.



(** ** Shapes *)

(** C4.  Shape preservation fails for [derivative].  On the cubic
    scenario, [__call__] returns an array of the query's shape for a query
    of shape (2, 3) and for a zero-dimensional query; [derivative], which
    neither flattens its argument nor reshapes its result as [__call__]
    does, raises on both: a broadcasting [ValueError] for shape (2, 3), a
    [TypeError] for shape (). *)
Theorem derivative_shape_bug :
  (exists y, __call__ cubic4 q23 = Ok y /\ shape y = shape q23)
  /\ derivative cubic4 q23
     = Raise (ValueError "operands could not be broadcast together")
  /\ (exists y, __call__ cubic4 q0 = Ok y /\ shape y = shape q0)
  /\ derivative cubic4 q0 = Raise TypeError.
Proof.
  split; [|split; [|split]].
  - eexists. split.
    + apply (call_table nodes4 (interleave samples4 yp4) (c := 2));
        [simpl; lia|reflexivity|lia|reflexivity].
    + reflexivity.
  - reflexivity.
  - eexists. split.
    + apply (call_table nodes4 (interleave samples4 yp4) (c := 2));
        [simpl; lia|reflexivity|lia|reflexivity].
    + reflexivity.
  - reflexivity.
Qed.

(** ** Construction errors *)



(** * The interpolant between its nodes *)

Ltac qc_neq :=
  let E := fresh in
  intro E; apply (f_equal this) in E; vm_compute in E; discriminate E.

(** Which queries fall in interval [k+1], between nodes [k] and [k+1]: those
    above node [k] (all of them for the first interval) and not above node
    [k+1] (all of them for the last). *)
Lemma interval_eq (nodes : list Qc) (x : Qc) k :
  increasing nodes -> (S k < length nodes)%nat ->
  (k = 0%nat \/ nth k nodes 0 < x) ->
  (S (S k) = length nodes \/ x <= nth (S k) nodes 0) ->
  interval nodes x = Z.of_nat (S k).
Proof.
  intros Hinc Hk Hlo Hhi.
  rewrite interval_insertion_point by exact Hinc.
  pose proof (insertion_point_le nodes x) as Hle.
  assert (G1 : (k = 0 \/ k < insertion_point nodes x)%nat).
  { destruct Hlo as [->|Hlo]; [left; reflexivity|right].
    apply (@insertion_point_ge nodes x (S k)); [lia|].
    intros j Hj. destruct (Nat.eq_dec j k) as [->|Hne]; [exact Hlo|].
    apply Qclt_trans with (nth k nodes 0); [|exact Hlo].
    apply increasing_lt; [exact Hinc|lia]. }
  assert (G2 : (S (S k) = length nodes \/ insertion_point nodes x <= S k)%nat).
  { destruct Hhi as [E|Hhi]; [left; exact E|right].
    destruct (Nat.le_gt_cases (insertion_point nodes x) (S k)) as [L|G]; [exact L|].
    exfalso. apply (Qcle_not_lt _ _ Hhi). apply insertion_point_below. exact G. }
  lia.
Qed.

Section Segment.

Variables (nodes samples yp : list Qc) (k : nat) (x : Qc).
Hypothesis Hinc : increasing nodes.
Hypothesis Hs : length samples = length nodes.
Hypothesis Hp : length yp = length nodes.
Hypothesis Hk : (S k < length nodes)%nat.
Hypothesis Hi : interval nodes x = Z.of_nat (S k).

Lemma segment_dx_nz : spec_dx nodes k <> 0.
Proof.
  unfold spec_dx. apply Qc_lt_minus_nz. apply increasing_lt; [exact Hinc|lia].
Qed.

Lemma eval_pt_right :
  let h := x - nth k nodes 0 in
  eval_pt nodes (interleave samples yp) 2 x
  = nth k samples 0 + h * nth k yp 0
    + h * h * (spec_curv_L yp nodes samples k / num 2
               + h * spec_jerk yp nodes samples k).
Proof.
  pose proof segment_dx_nz as D.
  unfold eval_pt. rewrite Hi. cbn [Nat.eqb].
  replace (Z.of_nat (S k) - 1)%Z with (Z.of_nat k) by lia.
  rewrite !row_interleave by lia. unfold at_. rewrite !Nat2Z.id.
  unfold spec_curv_L, spec_jerk, spec_slope, spec_dx in *.
  cbn [nth num of_pos Qcpower]. cbv zeta. field.
  repeat split; first [exact D | qc_neq].
Qed.

Lemma eval_pt_left :
  let h := x - nth (S k) nodes 0 in
  eval_pt nodes (interleave samples yp) 2 x
  = nth (S k) samples 0 + h * nth (S k) yp 0
    + h * h * (spec_curv_R yp nodes samples k / num 2
               + h * spec_jerk yp nodes samples k).
Proof.
  pose proof segment_dx_nz as D.
  unfold eval_pt. rewrite Hi. cbn [Nat.eqb].
  replace (Z.of_nat (S k) - 1)%Z with (Z.of_nat k) by lia.
  rewrite !row_interleave by lia. unfold at_. rewrite !Nat2Z.id.
  unfold spec_curv_R, spec_jerk, spec_slope, spec_dx in *.
  cbn [nth num of_pos Qcpower]. cbv zeta. field.
  repeat split; first [exact D | qc_neq].
Qed.

Lemma deriv_pt_right :
  let h := x - nth k nodes 0 in
  deriv_pt nodes (interleave samples yp) 2 x
  = nth k yp 0 + h * spec_curv_L yp nodes samples k
    + num 3 * (h * h) * spec_jerk yp nodes samples k.
Proof.
  pose proof segment_dx_nz as D.
  unfold deriv_pt. rewrite Hi. cbn [Nat.eqb].
  replace (Z.of_nat (S k) - 1)%Z with (Z.of_nat k) by lia.
  rewrite !row_interleave by lia. unfold at_. rewrite !Nat2Z.id.
  unfold spec_curv_L, spec_jerk, spec_slope, spec_dx in *.
  cbn [nth num of_pos Qcpower]. cbv zeta. field.
  exact D.
Qed.

Lemma deriv_pt_left :
  let h := x - nth (S k) nodes 0 in
  deriv_pt nodes (interleave samples yp) 2 x
  = nth (S k) yp 0 + h * spec_curv_R yp nodes samples k
    + num 3 * (h * h) * spec_jerk yp nodes samples k.
Proof.
  pose proof segment_dx_nz as D.
  unfold deriv_pt. rewrite Hi. cbn [Nat.eqb].
  replace (Z.of_nat (S k) - 1)%Z with (Z.of_nat k) by lia.
  rewrite !row_interleave by lia. unfold at_. rewrite !Nat2Z.id.
  unfold spec_curv_R, spec_jerk, spec_slope, spec_dx in *.
  cbn [nth num of_pos Qcpower]. cbv zeta. field.
  exact D.
Qed.

End Segment.

Lemma init_cubic_stored solve (nodes samples yp : list Qc) itp :
  length samples = length nodes ->
  __init__ solve (vec nodes) (vec samples) "cubic" = Ok itp ->
  wf (y0 itp) ->
  col (y0 itp) 1 = Ok (vec yp) ->
  increasing nodes /\ length yp = length nodes
  /\ itp = Interp (vec nodes)
             (NdArray [length nodes; 2%nat] (interleave samples yp)).
Proof.
  intros HL Hi W Hc.
  destruct (@init_inv solve nodes samples _ itp HL Hi W)
    as [Hinc [[E _]|[_ [yp0 [Hyp ->]]]]]; [discriminate E|].
  cbn [y0] in Hc. rewrite <- HL in Hc.
  rewrite col_interleave_1 in Hc by congruence.
  inversion Hc. subst. auto.
Qed.

Lemma call_one (nodes tbl : list Qc) c (x : Qc) :
  (2 <= length nodes)%nat -> length tbl = (length nodes * c)%nat ->
  (1 <= c)%nat ->
  __call__ (Interp (vec nodes) (NdArray [length nodes; c] tbl)) (vec [x])
  = Ok (vec [eval_pt nodes tbl c x]).
Proof.
  intros HN Ht Hc. rewrite call_table; auto. reflexivity.
Qed.

Lemma derivative_one (nodes tbl : list Qc) c (x : Qc) :
  (2 <= length nodes)%nat -> length tbl = (length nodes * c)%nat ->
  (1 <= c)%nat ->
  derivative (Interp (vec nodes) (NdArray [length nodes; c] tbl)) (vec [x])
  = Ok (vec [deriv_pt nodes tbl c x]).
Proof.
  intros HN Ht Hc. rewrite derivative_table; auto.
Qed.





(** The equations a stored root satisfies. *)
Lemma root_stored_entries (nodes samples yp : list Qc) m :
  length nodes = S (S m) -> length samples = S (S m) -> length yp = S (S m) ->
  root_stored (Interp (vec nodes)
                 (NdArray [length nodes; 2%nat] (interleave samples yp)))
              (vec nodes) (vec samples) = true ->
  spec_curv_L yp nodes samples 0 = 0
  /\ (forall j, (j < m)%nat ->
        spec_curv_L yp nodes samples (S j) = spec_curv_R yp nodes samples j)
  /\ spec_curv_R yp nodes samples m = 0.
Proof.
  intros Hn Hs Hp. unfold root_stored. cbn [y0].
  replace (length nodes) with (length samples) by congruence.
  rewrite col_interleave_1 by congruence.
  rewrite (resid_closed yp nodes samples (m := m)) by assumption.
  cbn [data vec forallb]. rewrite forallb_app. cbn [forallb].
  intros H. apply andb_true_iff in H. destruct H as [H0 H].
  apply andb_true_iff in H. destruct H as [H1 H2].
  rewrite andb_true_r in H2.
  apply Qc_eqb_eq in H0. apply Qc_eqb_eq in H2.
  split; [symmetry; exact H0|]. split.
  - intros j Hj. rewrite forallb_forall in H1.
    specialize (H1 (spec_curv_L yp nodes samples (S j)
                    - spec_curv_R yp nodes samples j)).
    assert (E : 0 = spec_curv_L yp nodes samples (S j)
                    - spec_curv_R yp nodes samples j).
    { apply Qc_eqb_eq. apply H1. apply in_map_iff. exists j.
      split; [reflexivity|]. apply in_seq. lia. }
    transitivity (spec_curv_R yp nodes samples j
                  + (spec_curv_L yp nodes samples (S j)
                     - spec_curv_R yp nodes samples j)); [ring|].
    rewrite <- E. ring.
  - transitivity (- - spec_curv_R yp nodes samples m); [ring|].
    rewrite <- H2. ring.
Qed.





(** ** Order arithmetic, through the rationals *)

Ltac qc2q :=
  unfold Qcle, Qclt, Qcdiv, Qcminus, Qcinv, Qcopp, Qcplus, Qcmult, Q2Qc in *;
  cbn [this] in *;
  repeat match goal with
         | H : context [Qred _] |- _ => rewrite !Qred_correct in H
         end;
  rewrite ?Qred_correct.

Lemma Qc_eq_Qeq (a b : Qc) : a = b -> (this a == this b)%Q.
Proof. intros ->. reflexivity. Qed.

Lemma Qsq_nonneg (x : Q) : (0 <= x * x)%Q.
Proof.
  destruct (Qlt_le_dec x 0) as [H|H].
  - setoid_replace (x * x)%Q with ((-x) * (-x))%Q by ring.
    apply Qmult_le_0_compat; lra.
  - apply Qmult_le_0_compat; lra.
Qed.

Lemma step_Q (w0 w1 w2 a b : Q) :
  (0 < a -> 0 < b -> 0 <= w1 * (2 * w0 + w1) ->
   (2 * w1 + w2) * a == - ((2 * w1 + w0) * b) ->
   0 <= w2 * (2 * w1 + w2) /\ w1 * w2 + 2 * (w1 * w1) <= 0)%Q.
Proof.
  intros Ha Hb HA E.
  assert (E2 : (w1 * ((2 * w1 + w2) * a) == w1 * - ((2 * w1 + w0) * b))%Q)
    by (rewrite E; reflexivity).
  assert (I1 : (a * (w2 * (2 * w1 + w2))
                == a * ((2 * w1 + w2) * (2 * w1 + w2))
                   + b * (3 * (w1 * w1) + w1 * (2 * w0 + w1)))%Q) by lra.
  assert (I2 : (2 * (a * (w1 * w2 + 2 * (w1 * w1)))
                == - (b * (3 * (w1 * w1) + w1 * (2 * w0 + w1))))%Q) by lra.
  pose proof (Qsq_nonneg (2 * w1 + w2)) as S1.
  pose proof (Qsq_nonneg w1) as S2.
  assert (P1 : (0 <= a * ((2 * w1 + w2) * (2 * w1 + w2)))%Q)
    by (apply Qmult_le_0_compat; lra).
  assert (P2 : (0 <= b * (3 * (w1 * w1) + w1 * (2 * w0 + w1)))%Q)
    by (apply Qmult_le_0_compat; lra).
  split.
  - assert (H : (0 <= a * (w2 * (2 * w1 + w2)))%Q) by lra.
    generalize dependent (w2 * (2 * w1 + w2))%Q. intros X _ H. nra.
  - assert (H : (2 * (a * (w1 * w2 + 2 * (w1 * w1))) <= 0)%Q) by lra.
    generalize dependent (w1 * w2 + 2 * (w1 * w1))%Q. intros X _ H. nra.
Qed.

Lemma last_Q (w0 w1 : Q) :
  (0 <= w1 * (2 * w0 + w1) -> 2 * w1 + w0 == 0 -> w1 == 0)%Q.
Proof.
  intros H E. assert (E0 : (w0 == - (2 * w1))%Q) by lra.
  rewrite E0 in H. pose proof (Qsq_nonneg w1).
  assert (Z : (w1 * w1 == 0)%Q) by lra.
  apply Qmult_integral in Z. tauto.
Qed.

Lemma back_Q (w0 w1 : Q) :
  (w0 * w1 + 2 * (w0 * w0) <= 0 -> w1 == 0 -> w0 == 0)%Q.
Proof.
  intros H E. rewrite E in H. pose proof (Qsq_nonneg w0).
  assert (Z : (w0 * w0 == 0)%Q) by lra.
  apply Qmult_integral in Z. tauto.
Qed.

Lemma step_Qc (w0 w1 w2 a b : Qc) :
  0 < a -> 0 < b -> 0 <= w1 * (two * w0 + w1) ->
  (two * w1 + w2) * a = - ((two * w1 + w0) * b) ->
  0 <= w2 * (two * w1 + w2) /\ w1 * w2 + two * (w1 * w1) <= 0.
Proof.
  intros Ha Hb HA E. apply Qc_eq_Qeq in E. unfold two in *. qc2q.
  destruct (@step_Q (this w0) (this w1) (this w2) (this a) (this b));
    lra.
Qed.

Lemma last_Qc (w0 w1 : Qc) :
  0 <= w1 * (two * w0 + w1) -> two * w1 + w0 = 0 -> w1 = 0.
Proof.
  intros H E. apply Qc_eq_Qeq in E. apply Qc_is_canon. unfold two in *. qc2q.
  apply (@last_Q (this w0) (this w1)); lra.
Qed.

Lemma back_Qc (w0 w1 : Qc) :
  w0 * w1 + two * (w0 * w0) <= 0 -> w1 = 0 -> w0 = 0.
Proof.
  intros H E. apply Qc_eq_Qeq in E. apply Qc_is_canon. unfold two in *. qc2q.
  apply (@back_Q (this w0) (this w1)); lra.
Qed.

(** ** The tridiagonal system has a trivial kernel *)

Section Kernel.

Variables (w d : nat -> Qc) (m : nat).
Hypothesis Hd : forall j, (j <= m)%nat -> 0 < d j.
Hypothesis H0 : two * w 0%nat + w 1%nat = 0.
Hypothesis Hmid : forall j, (j < m)%nat ->
  (two * w (S j) + w (S (S j))) * d j = - ((two * w (S j) + w j) * d (S j)).
Hypothesis Hlast : two * w (S m) + w m = 0.

Lemma kernel_forward j :
  (j <= m)%nat ->
  0 <= w (S j) * (two * w j + w (S j))
  /\ w j * w (S j) + two * (w j * w j) <= 0.
Proof.
  induction j as [|j IH]; intros Hj.
  - replace (w 1%nat) with (- (two * w 0%nat))
      by (transitivity (two * w 0%nat + w 1%nat - two * w 0%nat);
          [rewrite H0|]; ring).
    split.
    + replace (- (two * w 0%nat) * (two * w 0%nat + - (two * w 0%nat)))
        with 0 by ring. apply Qcle_refl.
    + replace (w 0%nat * - (two * w 0%nat) + two * (w 0%nat * w 0%nat))
        with 0 by ring. apply Qcle_refl.
  - destruct IH as [IA _]; [lia|].
    apply (@step_Qc (w j) (w (S j)) (w (S (S j))) (d j) (d (S j)));
      [apply Hd; lia|apply Hd; lia|exact IA|apply Hmid; lia].
Qed.

Lemma kernel_last : w (S m) = 0.
Proof.
  destruct (kernel_forward (j := m)) as [A _]; [lia|].
  exact (last_Qc A Hlast).
Qed.

Lemma kernel_backward k : (k <= S m)%nat -> w (S m - k)%nat = 0.
Proof.
  induction k as [|k IH]; intros Hk.
  - rewrite Nat.sub_0_r. exact kernel_last.
  - destruct (kernel_forward (j := (S m - S k)%nat)) as [_ B]; [lia|].
    apply (back_Qc B).
    replace (S (S m - S k)) with (S m - k)%nat by lia. apply IH. lia.
Qed.

Lemma kernel_trivial i : (i <= S m)%nat -> w i = 0.
Proof.
  intros Hi. replace i with (S m - (S m - i))%nat by lia.
  apply kernel_backward. lia.
Qed.

End Kernel.

Lemma two_nz : two <> 0.
Proof. intro E. apply (f_equal this) in E. vm_compute in E. discriminate E. Qed.

Lemma spec_dx_pos (nodes : list Qc) j :
  increasing nodes -> (S j < length nodes)%nat -> 0 < spec_dx nodes j.
Proof.
  intros Hinc Hj. unfold spec_dx.
  assert (L : nth j nodes 0 < nth (S j) nodes 0)
    by (apply increasing_lt; [exact Hinc|lia]).
  apply Qclt_minus_iff in L. exact L.
Qed.

Lemma Qc_pos_nz (a : Qc) : 0 < a -> a <> 0.
Proof. intros H E. rewrite E in H. discriminate H. Qed.

Ltac nz :=
  repeat split;
  first [ assumption | apply two_nz
        | let E := fresh in
          intro E; apply (f_equal this) in E; vm_compute in E; discriminate E ].

Lemma Ok_vec_inj {A} (l1 l2 : list A) :
  @Ok (ndarray A) (vec l1) = Ok (vec l2) -> l1 = l2.
Proof.
  intros H.
  apply (f_equal (fun r => match r with Ok a => data a | Raise _ => [] end)) in H.
  exact H.
Qed.

Lemma resid_injective (nodes samples u v : list Qc) :
  (2 <= length nodes)%nat -> increasing nodes ->
  length samples = length nodes ->
  length u = length nodes -> length v = length nodes ->
  cspline_resid (vec u) (vec nodes) (vec samples)
  = cspline_resid (vec v) (vec nodes) (vec samples) ->
  u = v.
Proof.
  intros HN Hinc Hs Hu Hv E.
  assert (EN : exists m, length nodes = S (S m))
    by (exists (length nodes - 2)%nat; lia).
  destruct EN as [m EN].
  rewrite EN in Hs, Hu, Hv.
  pose proof (resid_closed u nodes samples (m := m) EN Hs Hu) as Ru.
  pose proof (resid_closed v nodes samples (m := m) EN Hs Hv) as Rv.
  assert (E' := eq_trans (eq_sym Ru) (eq_trans E Rv)).
  clear E Ru Rv. apply Ok_vec_inj in E'.
  assert (En : forall i,
             nth i (spec_curv_L u nodes samples 0
                    :: map (fun k => spec_curv_L u nodes samples (S k)
                                     - spec_curv_R u nodes samples k) (seq 0 m)
                    ++ [- spec_curv_R u nodes samples m]) 0
             = nth i (spec_curv_L v nodes samples 0
                      :: map (fun k => spec_curv_L v nodes samples (S k)
                                       - spec_curv_R v nodes samples k) (seq 0 m)
                      ++ [- spec_curv_R v nodes samples m]) 0)
    by (intro i; rewrite E'; reflexivity).
  clear E'.
  set (w := fun i => nth i u 0 - nth i v 0).
  set (d := spec_dx nodes).
  assert (Hd : forall j, (j <= m)%nat -> 0 < d j)
    by (intros j Hj; apply spec_dx_pos; [exact Hinc|lia]).
  assert (K : forall i, (i <= S m)%nat -> w i = 0).
  { apply (@kernel_trivial w d m Hd).
    - pose proof (En 0%nat) as E. cbn [nth] in E.
      pose proof (Qc_pos_nz (Hd 0%nat ltac:(lia))) as D.
      unfold spec_curv_L in E. fold (d 0%nat) in E. unfold w.
      transitivity
        (((num 6 * spec_slope nodes samples 0 - num 4 * nth 0 v 0
           - num 2 * nth 1 v 0) / d 0%nat
          - (num 6 * spec_slope nodes samples 0 - num 4 * nth 0 u 0
             - num 2 * nth 1 u 0) / d 0%nat) * d 0%nat / two).
      + unfold two. cbn [num of_pos]. field. nz.
      + rewrite E. unfold two. field. nz.
    - intros j Hj. pose proof (En (S j)) as E.
      rewrite !nth_resid_closed in E.
      replace (j <? m)%nat with true in E by (symmetry; apply Nat.ltb_lt; lia).
      pose proof (Qc_pos_nz (Hd j ltac:(lia))) as D0.
      pose proof (Qc_pos_nz (Hd (S j) ltac:(lia))) as D1.
      assert (E' : spec_curv_L u nodes samples (S j)
                   - spec_curv_L v nodes samples (S j)
                   = spec_curv_R u nodes samples j
                     - spec_curv_R v nodes samples j).
      { transitivity (spec_curv_L u nodes samples (S j)
                      - spec_curv_R u nodes samples j
                      - spec_curv_L v nodes samples (S j)
                      + spec_curv_R u nodes samples j); [ring|].
        rewrite E. ring. }
      unfold spec_curv_L, spec_curv_R in E'.
      fold (d j) in E'. fold (d (S j)) in E'. unfold w.
      transitivity
        (- (((num 6 * spec_slope nodes samples (S j) - num 4 * nth (S j) u 0
              - num 2 * nth (S (S j)) u 0) / d (S j)
             - (num 6 * spec_slope nodes samples (S j) - num 4 * nth (S j) v 0
                - num 2 * nth (S (S j)) v 0) / d (S j))
            * d (S j) * d j) / two).
      + unfold two. cbn [num of_pos]. field. nz.
      + rewrite E'. unfold two. cbn [num of_pos]. field.
        nz.
    - pose proof (En (S m)) as E. rewrite !nth_resid_closed in E.
      rewrite Nat.ltb_irrefl, Nat.eqb_refl in E.
      pose proof (Qc_pos_nz (Hd m ltac:(lia))) as D.
      unfold spec_curv_R in E. fold (d m) in E. unfold w.
      transitivity
        ((- (- ((num 4 * nth (S m) u 0 + num 2 * nth m u 0
                 - num 6 * spec_slope nodes samples m) / d m))
          - - (- ((num 4 * nth (S m) v 0 + num 2 * nth m v 0
                   - num 6 * spec_slope nodes samples m) / d m)))
         * d m / two).
      + unfold two. cbn [num of_pos]. field. nz.
      + rewrite E. unfold two. field. nz. }
  apply (nth_ext _ _ 0 0); [congruence|].
  intros i Hi. specialize (K i ltac:(lia)). unfold w in K.
  transitivity (nth i u 0 - nth i v 0 + nth i v 0); [ring|].
  rewrite K. ring.
Qed.



Lemma forallb_zero (l : list Qc) :
  forallb (Qc_eqb 0) l = true -> l = repeat 0 (length l).
Proof.
  induction l as [|a l IH]; cbn [forallb length repeat]; intros H;
    [reflexivity|].
  apply andb_true_iff in H. destruct H as [Ha Hl].
  apply Qc_eqb_eq in Ha. rewrite <- Ha. f_equal. apply IH. exact Hl.
Qed.

Lemma zeros_vec n : zeros n = vec (repeat 0 n).
Proof. unfold zeros, vec. rewrite repeat_length. reflexivity. Qed.

(** A stored root makes the residual vanish. *)
Lemma root_stored_resid (nodes samples yp : list Qc) :
  (2 <= length nodes)%nat ->
  length samples = length nodes -> length yp = length nodes ->
  root_stored (Interp (vec nodes)
                 (NdArray [length nodes; 2%nat] (interleave samples yp)))
              (vec nodes) (vec samples) = true ->
  cspline_resid (vec yp) (vec nodes) (vec samples) = Ok (zeros (length nodes)).
Proof.
  intros HN Hs Hp. unfold root_stored. cbn [y0].
  replace (length nodes) with (length samples) at 1 by congruence.
  rewrite col_interleave_1 by congruence.
  assert (EN : exists m, length nodes = S (S m))
    by (exists (length nodes - 2)%nat; lia).
  destruct EN as [m EN].
  rewrite (resid_closed yp nodes samples (m := m)) by congruence.
  cbn [data vec]. intros H. apply forallb_zero in H.
  rewrite length_resid_closed in H. rewrite H, EN, zeros_vec. reflexivity.
Qed.




(** ** Affine data *)

Section Affine.

Variables (nodes : list Qc) (a b : Qc).
Hypothesis Hinc : increasing nodes.

Lemma nth_affine k :
  (k < length nodes)%nat ->
  nth k (map (fun n => a * n + b) nodes) 0 = a * nth k nodes 0 + b.
Proof.
  intros Hk.
  rewrite (nth_indep _ 0 ((fun n => a * n + b) 0))
    by (rewrite length_map; exact Hk).
  exact (map_nth (fun n => a * n + b) nodes 0 k).
Qed.

Lemma nth_slopes k :
  (k < length nodes)%nat -> nth k (map (fun _ : Qc => a) nodes) 0 = a.
Proof.
  intros Hk.
  rewrite (nth_indep _ 0 ((fun _ : Qc => a) 0))
    by (rewrite length_map; exact Hk).
  exact (map_nth (fun _ : Qc => a) nodes 0 k).
Qed.

Lemma affine_slope k :
  (S k < length nodes)%nat ->
  spec_slope nodes (map (fun n => a * n + b) nodes) k = a.
Proof.
  intros Hk. unfold spec_slope. rewrite !nth_affine by lia.
  pose proof (Qc_pos_nz (@spec_dx_pos nodes k Hinc Hk)) as D.
  unfold spec_dx in *. field. exact D.
Qed.

Lemma affine_curv_L k :
  (S k < length nodes)%nat ->
  spec_curv_L (map (fun _ : Qc => a) nodes) nodes
              (map (fun n => a * n + b) nodes) k = 0.
Proof.
  intros Hk. unfold spec_curv_L.
  rewrite affine_slope, !nth_slopes by lia.
  pose proof (Qc_pos_nz (@spec_dx_pos nodes k Hinc Hk)) as D.
  cbn [num of_pos]. field. exact D.
Qed.

Lemma affine_curv_R k :
  (S k < length nodes)%nat ->
  spec_curv_R (map (fun _ : Qc => a) nodes) nodes
              (map (fun n => a * n + b) nodes) k = 0.
Proof.
  intros Hk. unfold spec_curv_R.
  rewrite affine_slope, !nth_slopes by lia.
  pose proof (Qc_pos_nz (@spec_dx_pos nodes k Hinc Hk)) as D.
  cbn [num of_pos]. field. exact D.
Qed.

Lemma affine_resid_sec :
  (2 <= length nodes)%nat ->
  cspline_resid (vec (map (fun _ : Qc => a) nodes)) (vec nodes)
                (vec (map (fun n => a * n + b) nodes))
  = Ok (zeros (length nodes)).
Proof.
  intros HN.
  assert (EN : exists m, length nodes = S (S m))
    by (exists (length nodes - 2)%nat; lia).
  destruct EN as [m EN].
  rewrite (resid_closed (map (fun _ : Qc => a) nodes) nodes
             (map (fun n => a * n + b) nodes) (m := m))
    by (rewrite ?length_map; exact EN).
  rewrite zeros_vec, EN. do 2 f_equal.
  apply (nth_ext _ _ 0 0); [rewrite length_resid_closed, repeat_length; reflexivity|].
  intros i Hi. rewrite length_resid_closed in Hi.
  rewrite nth_resid_closed, nth_repeat_0.
  destruct i as [|j]; [apply affine_curv_L; lia|].
  destruct (j <? m)%nat eqn:E.
  - apply Nat.ltb_lt in E.
    rewrite affine_curv_L, affine_curv_R by lia. ring.
  - apply Nat.ltb_ge in E. replace j with m by lia.
    rewrite Nat.eqb_refl, affine_curv_R by lia. ring.
Qed.

End Affine.

Lemma affine_data_root_aux (nodes : list Qc) (a b : Qc) :
  (2 <= length nodes)%nat -> increasing nodes ->
  cspline_resid (vec (map (fun _ => a) nodes)) (vec nodes)
                (vec (map (fun n => a * n + b) nodes))
  = Ok (zeros (length nodes)).
Proof. intros HN Hinc. apply affine_resid_sec; assumption. Qed.



Lemma row_interleave_Z (u v : list Qc) (k : Z) :
  (0 <= k)%Z -> (Z.to_nat k < length u)%nat -> (Z.to_nat k < length v)%nat ->
  row 2 (interleave u v) k = [at_ u k; at_ v k].
Proof.
  intros H Hu Hv. rewrite <- (Z2Nat.id k H) at 1.
  rewrite row_interleave by assumption. reflexivity.
Qed.

Lemma affine_cubic_pt (nodes : list Qc) (a b x : Qc) :
  increasing nodes -> (2 <= length nodes)%nat ->
  eval_pt nodes (interleave (map (fun n => a * n + b) nodes)
                            (map (fun _ => a) nodes)) 2 x = a * x + b
  /\ deriv_pt nodes (interleave (map (fun n => a * n + b) nodes)
                                (map (fun _ => a) nodes)) 2 x = a.
Proof.
  intros Hinc HN.
  pose proof (interval_range nodes x HN) as R.
  pose proof (interval_width x Hinc HN) as D. apply Qc_lt_minus_nz in D.
  unfold eval_pt, deriv_pt. cbn [Nat.eqb].
  rewrite !row_interleave_Z by (rewrite ?length_map; lia).
  cbn [nth]. rewrite !at_map by lia.
  revert D.
  generalize (at_ nodes (interval nodes x)) (at_ nodes (interval nodes x - 1)).
  intros xb xa D. cbv zeta. cbn [num of_pos Qcpower].
  split; field; exact D.
Qed.





(** ** The linear kind between its nodes *)

Lemma linear_pt_segment (nodes samples : list Qc) k x :
  increasing nodes -> (S k < length nodes)%nat ->
  interval nodes x = Z.of_nat (S k) ->
  eval_pt nodes samples 1 x
  = nth k samples 0 + (x - nth k nodes 0) * spec_slope nodes samples k
  /\ deriv_pt nodes samples 1 x = spec_slope nodes samples k.
Proof.
  intros Hinc Hk Hi.
  assert (D : spec_dx nodes k <> 0).
  { unfold spec_dx. apply Qc_lt_minus_nz. apply increasing_lt; [exact Hinc|lia]. }
  unfold eval_pt, deriv_pt. rewrite Hi. cbn [Nat.eqb].
  replace (Z.of_nat (S k) - 1)%Z with (Z.of_nat k) by lia.
  rewrite !nth_row_1. unfold at_. rewrite !Nat2Z.id.
  unfold spec_slope, spec_dx in *. cbv zeta. split; field; exact D.
Qed.



(** ** Locality: what [testLinear] checks *)

Lemma interval_below (nodes : list Qc) x j :
  increasing nodes -> (1 <= j)%nat -> (j < length nodes)%nat ->
  x <= nth j nodes 0 -> (interval nodes x <= Z.of_nat j)%Z.
Proof.
  intros Hinc Hj1 Hj Hx. rewrite interval_insertion_point by exact Hinc.
  assert (G : (insertion_point nodes x <= j)%nat).
  { destruct (Nat.le_gt_cases (insertion_point nodes x) j) as [L|G]; [exact L|].
    exfalso. apply (Qcle_not_lt _ _ Hx). apply insertion_point_below. exact G. }
  lia.
Qed.

Lemma map_ext_Forall {A B} (f g : A -> B) (P : A -> Prop) (l : list A) :
  Forall P l -> (forall a, P a -> f a = g a) -> map f l = map g l.
Proof.
  intros HF H. induction HF as [|a l Ha _ IH]; cbn [map]; [reflexivity|].
  rewrite (H a Ha), IH. reflexivity.
Qed.




(** ** No overshoot for the linear kind *)

Lemma Qpos_factor (a z : Q) : (0 < a -> 0 <= a * z -> 0 <= z)%Q.
Proof. intros. nra. Qed.

Lemma convex_Q (xa xb x ya yb v : Q) :
  (xa < xb -> xa <= x -> x <= xb ->
   v * (xb - xa) == (x - xa) * yb + (xb - x) * ya ->
   ya <= yb -> ya <= v /\ v <= yb)%Q.
Proof.
  intros Hd Hlo Hhi E Hy.
  assert (P1 : (0 <= (x - xa) * (yb - ya))%Q)
    by (apply Qmult_le_0_compat; lra).
  assert (P2 : (0 <= (xb - x) * (yb - ya))%Q)
    by (apply Qmult_le_0_compat; lra).
  assert (I1 : (0 <= (xb - xa) * (v - ya))%Q) by lra.
  assert (I2 : (0 <= (xb - xa) * (yb - v))%Q) by lra.
  assert (Hp : (0 < xb - xa)%Q) by lra.
  pose proof (@Qpos_factor _ _ Hp I1). pose proof (@Qpos_factor _ _ Hp I2).
  split; lra.
Qed.

Lemma convex_Qc (xa xb x ya yb : Qc) :
  xa < xb -> xa <= x -> x <= xb -> ya <= yb ->
  let t := (x - xa) / (xb - xa) in
  ya <= t * yb + (1 - t) * ya /\ t * yb + (1 - t) * ya <= yb.
Proof.
  intros Hd Hlo Hhi Hy t.
  assert (E : (t * yb + (1 - t) * ya) * (xb - xa)
              = (x - xa) * yb + (xb - x) * ya).
  { unfold t. field. apply Qc_lt_minus_nz. exact Hd. }
  generalize dependent (t * yb + (1 - t) * ya). intros v E.
  apply Qc_eq_Qeq in E. qc2q.
  apply (@convex_Q (this xa) (this xb) (this x)); lra.
Qed.

Lemma convex_Qc_rev (xa xb x ya yb : Qc) :
  xa < xb -> xa <= x -> x <= xb -> yb <= ya ->
  let t := (x - xa) / (xb - xa) in
  yb <= t * yb + (1 - t) * ya /\ t * yb + (1 - t) * ya <= ya.
Proof.
  intros Hd Hlo Hhi Hy t.
  assert (E : (t * yb + (1 - t) * ya) * (xb - xa)
              = (xb - x) * ya + (x - xa) * yb).
  { unfold t. field. apply Qc_lt_minus_nz. exact Hd. }
  generalize dependent (t * yb + (1 - t) * ya). intros v E.
  apply Qc_eq_Qeq in E. qc2q.
  assert (G : (- this ya <= - this v /\ - this v <= - this yb)%Q).
  { apply (@convex_Q (this xa) (this xb) (this x)); lra. }
  lra.
Qed.

Lemma interval_brackets (nodes : list Qc) x :
  increasing nodes -> (2 <= length nodes)%nat ->
  nth 0 nodes 0 <= x -> x <= nth (length nodes - 1) nodes 0 ->
  at_ nodes (interval nodes x - 1) <= x /\ x <= at_ nodes (interval nodes x).
Proof.
  intros Hinc HN Hlo Hhi.
  destruct (interval_props x Hinc HN) as [R [P0 [_ [Pin _]]]].
  destruct (Qclt_le_dec (nth 0 nodes 0) x) as [L|G].
  - destruct Pin as [A B].
    + split; [exact L|]. unfold at_.
      replace (Z.to_nat (Z.of_nat (length nodes) - 1)) with (length nodes - 1)%nat
        by lia. exact Hhi.
    + split; [apply Qclt_le_weak; exact A|exact B].
  - rewrite (P0 G). change (1 - 1)%Z with 0%Z. unfold at_. cbn [Z.to_nat].
    split; [exact Hlo|].
    apply Qcle_trans with (nth 0 nodes 0); [exact G|].
    apply Qclt_le_weak. apply increasing_lt; [exact Hinc|].
    change (Pos.to_nat 1) with 1%nat. lia.
Qed.



(** ** Degenerate node vectors *)

(** Integer indexing with negative indices, which count from the end. *)
Lemma take_pw_wrap {X A} (a : ndarray A) d0 rest s (xs : list X) (h : X -> Z) :
  shape a = d0 :: rest ->
  (forall x, - Z.of_nat d0 <= h x < Z.of_nat d0)%Z ->
  take a (pw s xs h)
  = Ok (NdArray (s ++ rest)
          (flat_map (fun x => block (prod rest)
                                (Z.to_nat (if (h x <? 0)%Z
                                           then h x + Z.of_nat d0 else h x))
                                (data a)) xs)).
Proof.
  intros Hs Hh. unfold take. rewrite Hs. cbn [pw data shape].
  rewrite (mapM_ok _ (fun k => block (prod rest)
                                (Z.to_nat (if (k <? 0)%Z
                                           then k + Z.of_nat d0 else k))
                                (data a))).
  - cbn [bind]. rewrite <- flat_map_concat_map, flat_map_map. reflexivity.
  - intros k Hk. apply in_map_iff in Hk. destruct Hk as [x [<- _]].
    specialize (Hh x). cbv zeta.
    destruct (h x <? 0)%Z eqn:E;
      [apply Z.ltb_lt in E|apply Z.ltb_ge in E];
      (match goal with
       | |- (if ?c then _ else _) = _ => replace c with true; [reflexivity|]
       end; symmetry; apply andb_true_iff;
       split; [apply Z.leb_le|apply Z.ltb_lt]; lia).
Qed.

(** X12.  A single node is accepted, and its interval is degenerate.
    The constructor's assertion holds vacuously for one node (there is no
    pair of neighbours to compare); [find] then clamps the index to 0, and
    index [i - 1 = -1] wraps around to the same node: both bounds returned
    are that one node, for every query, so that [x1 - x0] is zero in
    [__call__] and [derivative]. *)
Theorem single_node_bounds_coincide solve (n0 s0 : Qc) (xs : list Qc) :
  exists itp,
    __init__ solve (vec [n0]) (vec [s0]) "linear" = Ok itp
    /\ find itp (vec xs)
       = Ok (vec (map (fun _ => n0) xs), vec (map (fun _ => n0) xs),
             NdArray [length xs; 1%nat] (map (fun _ => s0) xs),
             NdArray [length xs; 1%nat] (map (fun _ => s0) xs)).
Proof.
  eexists. split; [rewrite init_vec; reflexivity|].
  assert (E : vec xs = pw [length xs] xs (fun v => v))
    by (unfold vec, pw; rewrite map_id; reflexivity).
  rewrite E. unfold find. cbn [x0 y0]. unfold searchsorted.
  cbn [vec shape data length]. rewrite ew1_pw. cbn [bind].
  rewrite into_pw by discriminate. cbn [bind].
  rewrite into_pw by discriminate. cbn [bind]. rewrite ew1_pw.
  assert (R : forall x : Qc,
             Z.min (Z.max (Z.of_nat (searchsorted_left [n0] x)) 1)
                   (Z.of_nat (size (NdArray [1%nat] [n0])) - 1) = 0%Z)
    by (intro; unfold size; cbn [shape prod fold_right]; lia).
  rewrite !(take_pw_wrap _ (d0 := 1) (rest := []))
    by (try reflexivity; intro x; rewrite R; lia).
  cbn [bind]. 
  rewrite !(take_pw_wrap _ (d0 := 1) (rest := [1%nat]))
    by (try reflexivity; intro x; rewrite R; lia).
  cbn [bind data prod fold_right app]. unfold vec. rewrite !length_map.
  repeat f_equal; rewrite <- flat_map_single; apply flat_map_ext;
    intro x; rewrite R; reflexivity.
Qed.


(** ** Residual of mismatched vectors *)

Lemma slice_1_vec (l : list Qc) :
  slice_1_ (vec l) = Ok (NdArray [(length l - 1)%nat] (skipn 1 l)).
Proof.
  unfold slice_1_. cbn [vec shape data prod fold_right]. reflexivity.
Qed.

Lemma slice__m1_vec (l : list Qc) :
  slice__m1 (vec l) = Ok (NdArray [(length l - 1)%nat] (firstn (length l - 1) l)).
Proof.
  unfold slice__m1. cbn [vec shape data prod fold_right].
  rewrite Nat.mul_1_r. reflexivity.
Qed.

Lemma diff_vec (l : list Qc) :
  exists d, (slice_1_ (vec l) - slice__m1 (vec l))%arr
            = Ok (NdArray [(length l - 1)%nat] d).
Proof.
  rewrite slice_1_vec, slice__m1_vec. unfold lift2. cbn [bind].
  rewrite ew2_same.
  - eexists. reflexivity.
  - rewrite length_skipn. cbn [prod fold_right]. lia.
  - rewrite length_firstn. cbn [prod fold_right]. lia.
Qed.

Lemma ew2_mismatch {A B C} (f : A -> B -> C) (n m : nat) da db :
  (2 <= n)%nat -> (2 <= m)%nat -> n <> m ->
  ew2 f (NdArray [n] da) (NdArray [m] db)
  = Raise (ValueError "operands could not be broadcast together").
Proof.
  intros Hn Hm Hd. unfold ew2, broadcast_shapes. cbn.
  destruct (n =? m)%nat eqn:E1; [apply Nat.eqb_eq in E1; lia|].
  destruct (n =? 1)%nat eqn:E2; [apply Nat.eqb_eq in E2; lia|].
  destruct (m =? 1)%nat eqn:E3; [apply Nat.eqb_eq in E3; lia|].
  reflexivity.
Qed.

(** X14.  Vectors of different lengths are refused by the residual, from
    length 3 on.  For at least 3 nodes, [cspline_resid] raises the
    broadcasting [ValueError] when the samples have another length (at
    least 3), and when the samples fit but the derivative vector has
    another length (at least 3).  (A vector of length 2 has one
    difference, which broadcasts.) *)
Theorem cspline_resid_length_mismatch (yp x y : list Qc) :
  (3 <= length x)%nat ->
  ((3 <= length y)%nat /\ length y <> length x
   \/ length y = length x /\ (3 <= length yp)%nat /\ length yp <> length x) ->
  cspline_resid (vec yp) (vec x) (vec y)
  = Raise (ValueError "operands could not be broadcast together").
Proof.
  intros Hx H. unfold cspline_resid.
  destruct (diff_vec x) as [dx Edx]. rewrite Edx. cbn [bind].
  destruct (diff_vec y) as [dy Edy].
  unfold lift2 at 1. rewrite Edy. cbn [bind].
  destruct H as [[Hy Hd]|[Ey [Hp Hd]]].
  - rewrite ew2_mismatch by lia. reflexivity.
  - rewrite Ey. 
    assert (Wdx : exists s, ew2 Qcdiv (NdArray [(length x - 1)%nat] dy)
                              (NdArray [(length x - 1)%nat] dx)
                            = Ok (NdArray [(length x - 1)%nat] s)).
    { unfold ew2. rewrite broadcast_shapes_same. eexists. reflexivity. }
    destruct Wdx as [s Es]. rewrite Es. cbn [bind].
    unfold lift2, scal. cbn [bind]. rewrite slice__m1_vec. cbn [bind].
    unfold ew1 at 1 2. cbn [shape data].
    rewrite ew2_mismatch by lia. reflexivity.
Qed.

Lemma cspline_resid_length_mismatch_witness :
  cspline_resid (vec yp4) (vec nodes4) (vec [num 0; num 1; num 2])
  = Raise (ValueError "operands could not be broadcast together").
Proof.
  apply cspline_resid_length_mismatch; [simpl; lia|].
  left. split; [simpl; lia|discriminate].
Defined.

(** ** Queries are evaluated entry by entry *)

(** X15.  Queries are evaluated entry by entry.  For an interpolant of
    either kind there are two functions of one query value, given by
    [__call__] and [derivative] on one-entry queries, such that [__call__]
    on a query array of any shape returns the array of that shape whose
    entries are the first function of the query's entries, and [derivative]
    on a one-dimensional query the second: no entry of the result depends
    on the other entries of the query. *)
Theorem evaluation_elementwise solve (nodes samples : list Qc) kind itp :
  (2 <= length nodes)%nat ->
  length samples = length nodes ->
  __init__ solve (vec nodes) (vec samples) kind = Ok itp ->
  wf (y0 itp) ->
  exists f g : Qc -> Qc,
    (forall x, __call__ itp (vec [x]) = Ok (vec [f x])
               /\ derivative itp (vec [x]) = Ok (vec [g x]))
    /\ (forall q, wf q ->
          __call__ itp q = Ok (NdArray (shape q) (map f (data q))))
    /\ (forall xs, derivative itp (vec xs) = Ok (vec (map g xs))).
Proof.
  intros HN HL Hi W.
  destruct (@init_inv solve nodes samples kind itp HL Hi W)
    as [_ [[_ ->]|[_ [yp [Hp ->]]]]].
  - exists (eval_pt nodes samples 1), (deriv_pt nodes samples 1).
    assert (Ht : length samples = (length nodes * 1)%nat) by lia.
    split; [|split].
    + intros x. split.
      * exact (@call_table nodes samples 1%nat (vec [x]) HN Ht (le_n 1) eq_refl).
      * exact (@derivative_table nodes samples 1%nat [x] HN Ht (le_n 1)).
    + intros q Wq. exact (@call_table nodes samples 1%nat q HN Ht (le_n 1) Wq).
    + intros xs. exact (@derivative_table nodes samples 1%nat xs HN Ht (le_n 1)).
  - exists (eval_pt nodes (interleave samples yp) 2),
           (deriv_pt nodes (interleave samples yp) 2).
    assert (Ht : length (interleave samples yp) = (length nodes * 2)%nat)
      by (rewrite length_interleave; lia).
    assert (H12 : (1 <= 2)%nat) by lia.
    split; [|split].
    + intros x. split.
      * exact (@call_table nodes _ 2%nat (vec [x]) HN Ht H12 eq_refl).
      * exact (@derivative_table nodes _ 2%nat [x] HN Ht H12).
    + intros q Wq. exact (@call_table nodes _ 2%nat q HN Ht H12 Wq).
    + intros xs. exact (@derivative_table nodes _ 2%nat xs HN Ht H12).
Qed.

Lemma evaluation_elementwise_witness :
  exists f g : Qc -> Qc,
    (forall x, __call__ linear3 (vec [x]) = Ok (vec [f x])
               /\ derivative linear3 (vec [x]) = Ok (vec [g x]))
    /\ (forall q, wf q ->
          __call__ linear3 q = Ok (NdArray (shape q) (map f (data q))))
    /\ (forall xs, derivative linear3 (vec xs) = Ok (vec (map g xs))).
Proof.
  apply (@evaluation_elementwise solve0 nodes3 samples3 "linear" linear3);
    [simpl; lia|reflexivity|reflexivity|reflexivity].
Defined.

(** ** What the constructor stores *)

Lemma map_fst_combine' {A B} (u : list A) (v : list B) :
  length u = length v -> map fst (combine u v) = u.
Proof.
  revert v. induction u as [|a u IH]; intros [|b v] H; simpl in *;
    try discriminate; [reflexivity|].
  f_equal. apply IH. lia.
Qed.

Lemma col_interleave_0 (u v : list Qc) :
  length u = length v ->
  col (NdArray [length u; 2%nat] (interleave u v)) 0 = Ok (vec u).
Proof.
  intros H. unfold interleave.
  replace (length u) with (length (combine u v))
    by (rewrite length_combine; lia).
  rewrite col_rows by (auto; lia).
  unfold pw, vec. cbn [nth].
  change (fun x : Qc * Qc => fst x) with (@fst Qc Qc).
  rewrite map_fst_combine' by lia.
  rewrite length_combine. do 3 f_equal. lia.
Qed.

(** X16.  What the cubic constructor stores.  A successful construction
    has called the solver once, with the residual of the given nodes and
    samples and a zero guess of the samples' length; the solver's answer
    [y0p] is one-dimensional of that length, and reading the stored table
    back by columns returns the samples and [y0p]. *)
Theorem cubic_constructor_round_trip solve (nodes samples : list Qc) itp :
  __init__ solve (vec nodes) (vec samples) "cubic" = Ok itp ->
  x0 itp = vec nodes
  /\ exists y0p,
       solve (fun yp => cspline_resid yp (vec nodes) (vec samples))
             (zeros (length samples)) = Ok y0p
       /\ shape y0p = [length samples]
       /\ (wf y0p ->
           col (y0 itp) 0 = Ok (vec samples) /\ col (y0 itp) 1 = Ok y0p).
Proof.
  rewrite init_vec.
  destruct (increasingb nodes); cbn [negb]; [|discriminate].
  cbn [String.eqb Ascii.eqb Bool.eqb].
  destruct (solve _ _) as [y0p|e] eqn:Es; cbn [bind]; [|discriminate].
  unfold transpose2. cbn [vec shape data].
  destruct y0p as [sh d]. cbn [shape data].
  destruct sh as [|m [|? ?]]; try discriminate.
  destruct (length samples =? m)%nat eqn:Em; cbn [bind]; [|discriminate].
  apply Nat.eqb_eq in Em. subst m.
  intros H. inversion H. subst itp. clear H. cbn [x0 y0].
  split; [reflexivity|].
  eexists. split; [reflexivity|]. split; [reflexivity|].
  unfold wf, size. cbn [shape data prod fold_right]. rewrite Nat.mul_1_r.
  intros Hd. split.
  - apply col_interleave_0. lia.
  - rewrite col_interleave_1 by lia. unfold vec. rewrite Hd. reflexivity.
Qed.

Lemma cubic_constructor_round_trip_witness :
  x0 cubic4 = vec nodes4
  /\ exists y0p,
       solve4 (fun yp => cspline_resid yp (vec nodes4) (vec samples4))
              (zeros (length samples4)) = Ok y0p
       /\ shape y0p = [length samples4]
       /\ (wf y0p ->
           col (y0 cubic4) 0 = Ok (vec samples4) /\ col (y0 cubic4) 1 = Ok y0p).
Proof.
  apply (@cubic_constructor_round_trip solve4 nodes4 samples4 cubic4).
  reflexivity.
Defined.


(** ** Superposition *)

Lemma nth_lincomb (a b : Qc) (u v : list Qc) k :
  length u = length v ->
  nth k (lincomb a b u v) 0 = a * nth k u 0 + b * nth k v 0.
Proof.
  unfold lincomb. revert v k.
  induction u as [|p u IH]; intros [|q v] k H; simpl in H; try discriminate.
  - destruct k; simpl; ring.
  - destruct k; simpl; [reflexivity|]. apply IH. lia.
Qed.

Lemma length_lincomb (a b : Qc) (u v : list Qc) :
  length u = length v -> length (lincomb a b u v) = length u.
Proof.
  intros H. unfold lincomb. rewrite length_map, length_combine. lia.
Qed.

Lemma at_lincomb (a b : Qc) (u v : list Qc) k :
  length u = length v ->
  at_ (lincomb a b u v) k = a * at_ u k + b * at_ v k.
Proof. intros H. unfold at_. apply nth_lincomb. exact H. Qed.

Lemma lincomb_map {X} (a b : Qc) (f g : X -> Qc) (xs : list X) :
  lincomb a b (map f xs) (map g xs) = map (fun x => a * f x + b * g x) xs.
Proof.
  unfold lincomb. induction xs as [|x xs IH]; [reflexivity|].
  cbn [map combine fst snd]. f_equal. exact IH.
Qed.

Lemma spec_curv_L_lincomb (a b : Qc) (pu pv x u v : list Qc) k :
  length pu = length pv -> length u = length v ->
  spec_curv_L (lincomb a b pu pv) x (lincomb a b u v) k
  = a * spec_curv_L pu x u k + b * spec_curv_L pv x v k.
Proof.
  intros Hp Hs. unfold spec_curv_L, spec_slope.
  rewrite !nth_lincomb by assumption. unfold Qcdiv. ring.
Qed.

Lemma spec_curv_R_lincomb (a b : Qc) (pu pv x u v : list Qc) k :
  length pu = length pv -> length u = length v ->
  spec_curv_R (lincomb a b pu pv) x (lincomb a b u v) k
  = a * spec_curv_R pu x u k + b * spec_curv_R pv x v k.
Proof.
  intros Hp Hs. unfold spec_curv_R, spec_slope.
  rewrite !nth_lincomb by assumption. unfold Qcdiv. ring.
Qed.

(** The residual is linear in the pair of the samples and the derivative
    vector: a combination of two roots is a root for the combined
    samples. *)
Lemma resid_lincomb_root (a b : Qc) (nodes u v pu pv : list Qc) :
  (2 <= length nodes)%nat ->
  length u = length nodes -> length v = length nodes ->
  length pu = length nodes -> length pv = length nodes ->
  cspline_resid (vec pu) (vec nodes) (vec u) = Ok (zeros (length nodes)) ->
  cspline_resid (vec pv) (vec nodes) (vec v) = Ok (zeros (length nodes)) ->
  cspline_resid (vec (lincomb a b pu pv)) (vec nodes) (vec (lincomb a b u v))
  = Ok (zeros (length nodes)).
Proof.
  intros HN Hu Hv Hpu Hpv Ru Rv.
  assert (EN : exists m, length nodes = S (S m))
    by (exists (length nodes - 2)%nat; lia).
  destruct EN as [m EN].
  rewrite EN in Hu, Hv, Hpu, Hpv.
  pose proof (resid_closed pu nodes u (m := m) EN Hu Hpu) as Cu.
  pose proof (resid_closed pv nodes v (m := m) EN Hv Hpv) as Cv.
  assert (Zu := eq_trans (eq_sym Cu) Ru). assert (Zv := eq_trans (eq_sym Cv) Rv).
  clear Cu Cv Ru Rv. rewrite zeros_vec in Zu, Zv.
  apply Ok_vec_inj in Zu. apply Ok_vec_inj in Zv.
  assert (Nu : forall i, nth i (spec_curv_L pu nodes u 0
                    :: map (fun k => spec_curv_L pu nodes u (S k)
                                     - spec_curv_R pu nodes u k) (seq 0 m)
                    ++ [- spec_curv_R pu nodes u m]) 0 = 0)
    by (intro i; rewrite Zu; apply nth_repeat_0).
  assert (Nv : forall i, nth i (spec_curv_L pv nodes v 0
                    :: map (fun k => spec_curv_L pv nodes v (S k)
                                     - spec_curv_R pv nodes v k) (seq 0 m)
                    ++ [- spec_curv_R pv nodes v m]) 0 = 0)
    by (intro i; rewrite Zv; apply nth_repeat_0).
  clear Zu Zv.
  rewrite (resid_closed (lincomb a b pu pv) nodes (lincomb a b u v) (m := m))
    by (rewrite ?length_lincomb; congruence).
  rewrite zeros_vec, EN. do 2 f_equal.
  apply (nth_ext _ _ 0 0);
    [rewrite length_resid_closed, repeat_length; reflexivity|].
  intros i Hi. rewrite length_resid_closed in Hi.
  specialize (Nu i). specialize (Nv i).
  rewrite nth_resid_closed in *. rewrite nth_repeat_0.
  destruct i as [|j].
  - rewrite spec_curv_L_lincomb by congruence. rewrite Nu, Nv. ring.
  - destruct (j <? m)%nat.
    + rewrite spec_curv_L_lincomb, spec_curv_R_lincomb by congruence.
      replace (a * spec_curv_L pu nodes u (S j) + b * spec_curv_L pv nodes v (S j)
               - (a * spec_curv_R pu nodes u j + b * spec_curv_R pv nodes v j))
        with (a * (spec_curv_L pu nodes u (S j) - spec_curv_R pu nodes u j)
              + b * (spec_curv_L pv nodes v (S j) - spec_curv_R pv nodes v j))
        by ring.
      rewrite Nu, Nv. ring.
    + destruct (j =? m)%nat; [|reflexivity].
      rewrite spec_curv_R_lincomb by congruence.
      replace (- (a * spec_curv_R pu nodes u m + b * spec_curv_R pv nodes v m))
        with (a * (- spec_curv_R pu nodes u m) + b * (- spec_curv_R pv nodes v m))
        by ring.
      rewrite Nu, Nv. ring.
Qed.

Lemma eval_pt_lincomb_1 (a b : Qc) (nodes u v : list Qc) x :
  (2 <= length nodes)%nat -> length u = length v ->
  eval_pt nodes (lincomb a b u v) 1 x
  = a * eval_pt nodes u 1 x + b * eval_pt nodes v 1 x
  /\ deriv_pt nodes (lincomb a b u v) 1 x
     = a * deriv_pt nodes u 1 x + b * deriv_pt nodes v 1 x.
Proof.
  intros HN H.
  pose proof (interval_range nodes x HN) as R.
  unfold eval_pt, deriv_pt. cbn [Nat.eqb].
  rewrite !nth_row_1_Z by lia. rewrite !at_lincomb by exact H.
  cbv zeta. unfold Qcdiv. split; ring.
Qed.

Lemma eval_pt_lincomb_2 (a b : Qc) (nodes u v pu pv : list Qc) x :
  (2 <= length nodes)%nat ->
  length u = length nodes -> length v = length nodes ->
  length pu = length nodes -> length pv = length nodes ->
  eval_pt nodes (interleave (lincomb a b u v) (lincomb a b pu pv)) 2 x
  = a * eval_pt nodes (interleave u pu) 2 x
    + b * eval_pt nodes (interleave v pv) 2 x
  /\ deriv_pt nodes (interleave (lincomb a b u v) (lincomb a b pu pv)) 2 x
     = a * deriv_pt nodes (interleave u pu) 2 x
       + b * deriv_pt nodes (interleave v pv) 2 x.
Proof.
  intros HN Hu Hv Hpu Hpv.
  pose proof (interval_range nodes x HN) as R.
  unfold eval_pt, deriv_pt. cbn [Nat.eqb].
  rewrite !row_interleave_Z by (rewrite ?length_lincomb; lia).
  cbn [nth]. rewrite !at_lincomb by congruence.
  cbv zeta. cbn [num of_pos Qcpower]. unfold Qcdiv. split; ring.
Qed.




(** ** [derivative] on queries that are not one-dimensional *)

Lemma broadcast_shapes_col (r c : nat) :
  broadcast_shapes [r; 1%nat] [r; c] = Some [r; c].
Proof.
  unfold broadcast_shapes. cbn [rev app bshape]. rewrite Nat.eqb_refl.
  destruct c as [|[|c]]; reflexivity.
Qed.

(** A column of shape (r, 1) against an array of shape (r, c): entry [p] of
    the result pairs entry [p / c] of the column with entry [p] of the
    array. *)
Lemma ew2_bcast_col {X A B C} (f : A -> B -> C) (r c : nat)
      (g : nat -> A) (xs : list X) (h : X -> B) (d : X) :
  length xs = (r * c)%nat ->
  ew2 f (pw [r; 1%nat] (seq 0 r) g) (pw [r; c] xs h)
  = Ok (pw [r; c] (seq 0 (r * c))
           (fun p => f (g (p / c)%nat) (h (nth p xs d)))).
Proof.
  intros Hl. unfold ew2, pw. cbn [shape data].
  rewrite broadcast_shapes_col. do 2 f_equal.
  cbn [prod fold_right]. rewrite Nat.mul_1_r.
  rewrite <- (flat_map_single (fun p => f (g (p / c)%nat) (h (nth p xs d)))).
  apply flat_map_ext_in.
  intros p Hp. apply in_seq in Hp.
  assert (Hc : c <> 0%nat) by (intro; subst c; lia).
  assert (Hq : (p / c < r)%nat)
    by (apply Nat.Div0.div_lt_upper_bound; lia).
  unfold src. cbn [shape data rev app].
  rewrite (@bidx_same [c; r] p 1%nat) by (cbn [prod fold_right]; lia).
  change (bidx [c; r] [1%nat; r] p 1)
    with ((if (1 =? 1)%nat then 0 else p mod c) * 1
          + bidx [r] [r] (p / c) (1 * 1))%nat.
  rewrite Nat.eqb_refl.
  rewrite (@bidx_same [r] (p / c)%nat (1 * 1)%nat)
    by (cbn [prod fold_right]; lia).
  replace (0 * 1 + 1 * 1 * (p / c))%nat with (p / c)%nat by lia.
  replace (1 * p)%nat with p by lia.
  rewrite (nth_error_nth' (map g (seq 0 r)) (g 0%nat))
    by (rewrite length_map, length_seq; exact Hq).
  rewrite (nth_error_nth' (map h xs) (h d))
    by (rewrite length_map; lia).
  rewrite !map_nth, seq_nth by exact Hq. reflexivity.
Qed.

Lemma row_1_at (l : list Qc) (k : Z) :
  (Z.to_nat k < length l)%nat -> row 1 l k = [at_ l k].
Proof. intros H. unfold row, at_. apply block_1_nth. exact H. Qed.

(** [a[:, 0]] for an array of shape (r, c, 1). *)
Lemma col_rc1 (r c : nat) (xs : list Qc) (G : Qc -> Qc) :
  length xs = (r * c)%nat -> (1 <= c)%nat ->
  col (NdArray [r; c; 1%nat] (flat_map (fun x => [G x]) xs)) 0
  = Ok (pw [r; 1%nat] (seq 0 r) (fun a => G (nth (a * c) xs 0))).
Proof.
  intros Hl Hc. unfold col. cbn [shape data prod fold_right].
  replace (0 <? c)%nat with true by (symmetry; apply Nat.ltb_lt; lia).
  unfold pw. do 2 f_equal.
  rewrite <- (flat_map_single (fun a => G (nth (a * c) xs 0))).
  apply flat_map_ext_in.
  intros a Ha. apply in_seq in Ha.
  rewrite flat_map_single, Nat.add_0_r.
  assert (Hk : (a * c < length xs)%nat) by nia.
  rewrite block_1_nth by (rewrite length_map; exact Hk).
  rewrite (nth_indep _ 0 (G 0)) by (rewrite length_map; exact Hk).
  rewrite map_nth. reflexivity.
Qed.

(** X18.  [derivative] of the linear kind on a two-dimensional query.  A
    query of shape (r, c) is accepted without an error, but [y1[:,0]]
    then selects the rows of the first query column instead of the first
    column of the value table: entry (a, b) of the result is the
    difference of the samples around query entry (a, 0), divided by the
    difference of the nodes around query entry (a, b).  It is the slope at
    entry (a, b) only where that entry lies in the interval of the first
    entry of its row. *)
Theorem derivative_linear_2d solve (nodes samples : list Qc) itp
        (q : ndarray Qc) (r c : nat) :
  (2 <= length nodes)%nat ->
  length samples = length nodes ->
  __init__ solve (vec nodes) (vec samples) "linear" = Ok itp ->
  shape q = [r; c] -> wf q -> (1 <= c)%nat ->
  derivative itp q
  = Ok (NdArray [r; c]
          (map (fun p =>
                  let x := nth p (data q) 0 in
                  let x_row := nth (p / c * c) (data q) 0 in
                  (at_ samples (interval nodes x_row)
                   - at_ samples (interval nodes x_row - 1))
                  / (at_ nodes (interval nodes x)
                     - at_ nodes (interval nodes x - 1)))
               (seq 0 (r * c)))).
Proof.
  intros HN HL Hi Hs Wq Hc.
  rewrite init_vec in Hi.
  destruct (increasingb nodes); cbn [negb] in Hi; [|discriminate Hi].
  cbn [String.eqb Ascii.eqb Bool.eqb] in Hi. inversion Hi. subst itp. clear Hi.
  rewrite HL.
  assert (Hl : length (data q) = (r * c)%nat).
  { unfold wf, size in Wq. rewrite Hs in Wq. cbn [prod fold_right] in Wq. lia. }
  unfold derivative.
  rewrite find_table by (auto; rewrite Hs; discriminate).
  cbn [bind]. rewrite Hs. cbn [app].
  assert (R : forall v, (1 <= interval nodes v <= Z.of_nat (length nodes) - 1)%Z)
    by (intro; apply interval_range; exact HN).
  rewrite (@flat_map_ext _ _ (fun x => row 1 samples (interval nodes x - 1))
             (fun x => [at_ samples (interval nodes x - 1)]))
    by (intro x; apply row_1_at; specialize (R x); lia).
  rewrite (@flat_map_ext _ _ (fun x => row 1 samples (interval nodes x))
             (fun x => [at_ samples (interval nodes x)]))
    by (intro x; apply row_1_at; specialize (R x); lia).
  unfold lift2, ncols. cbn [bind y0 shape nth_error].
  rewrite !col_rc1 by assumption. cbn [bind].
  rewrite ew2_pw by (cbn [prod fold_right]; rewrite length_seq; lia).
  cbn [bind].
  change (NdArray [r; c] (map (fun x => at_ nodes (interval nodes x)) (data q)))
    with (pw [r; c] (data q) (fun x => at_ nodes (interval nodes x))).
  change (NdArray [r; c]
            (map (fun x => at_ nodes (interval nodes x - 1)) (data q)))
    with (pw [r; c] (data q) (fun x => at_ nodes (interval nodes x - 1))).
  rewrite ew2_pw by (cbn [prod fold_right]; lia). cbn [bind].
  rewrite (@ew2_bcast_col _ _ _ _ Qcdiv r c _ (data q) _ 0) by exact Hl.
  cbn [bind Nat.eqb].
  reflexivity.
Qed.

Lemma derivative_linear_2d_witness :
  derivative linear3 (NdArray [1; 2]%nat [frac 1 2; frac 3 2])
  = Ok (NdArray [1; 2]%nat [num 1; num 1])
  /\ derivative linear3 (vec [frac 1 2; frac 3 2]) = Ok (vec [num 1; num 3]).
Proof.
  split.
  - rewrite (@derivative_linear_2d solve0 nodes3 samples3 linear3
               (NdArray [1; 2]%nat [frac 1 2; frac 3 2]) 1 2);
      [|simpl; lia|reflexivity|reflexivity|reflexivity|reflexivity|lia].
    apply (f_equal (@Ok (ndarray Qc))), (f_equal (NdArray [1; 2]%nat)).
    cbn [map seq Nat.mul Nat.add].
    apply f_equal2; [|apply f_equal2; [|reflexivity]];
      apply Qc_is_canon; vm_compute; reflexivity.
  - etransitivity;
      [apply (@derivative_table nodes3 samples3 1%nat [frac 1 2; frac 3 2]);
       [simpl; lia|reflexivity|lia]|].
    unfold vec. cbn [map length].
    apply (f_equal (@Ok (ndarray Qc))), (f_equal (NdArray [2]%nat)).
    apply f_equal2; [|apply f_equal2; [|reflexivity]];
      apply Qc_is_canon; vm_compute; reflexivity.
Defined.

Lemma ew2_ok_same {A B C} (f : A -> B -> C) (s : list nat) la lb :
  exists d, ew2 f (NdArray s la) (NdArray s lb) = Ok (NdArray s d).
Proof.
  unfold ew2. cbn [shape]. rewrite broadcast_shapes_same.
  eexists. reflexivity.
Qed.

Lemma ew2_mismatch_last {A B C} (f : A -> B -> C) (r c : nat) la lb :
  (3 <= c)%nat ->
  ew2 f (NdArray [r; 2%nat] la) (NdArray [r; c] lb)
  = Raise (ValueError "operands could not be broadcast together").
Proof.
  intros Hc. unfold ew2, broadcast_shapes. cbn [shape rev app bshape].
  rewrite Nat.eqb_refl.
  destruct c as [|[|[|c]]]; try lia. reflexivity.
Qed.

(** X19.  Queries that [derivative] refuses.  For an interpolant of either
    kind, [find] and [derivative] raise [TypeError] on every
    zero-dimensional query (the in-place [np.maximum] has no array to
    write to); the cubic [derivative] raises the broadcasting [ValueError]
    on every two-dimensional query with at least 3 columns. *)
Theorem derivative_rejects_shapes solve (nodes samples : list Qc) kind itp :
  (2 <= length nodes)%nat ->
  length samples = length nodes ->
  __init__ solve (vec nodes) (vec samples) kind = Ok itp ->
  wf (y0 itp) ->
  (forall q, shape q = [] ->
     find itp q = Raise TypeError /\ derivative itp q = Raise TypeError)
  /\ (kind = "cubic"%string ->
      forall q r c, shape q = [r; c] -> (3 <= c)%nat ->
        derivative itp q
        = Raise (ValueError "operands could not be broadcast together")).
Proof.
  intros HN HL Hi W.
  assert (Hscalar : forall tbl q, shape q = [] ->
            find (Interp (vec nodes) tbl) q = Raise TypeError).
  { intros tbl q Hs. unfold find, searchsorted, into, ew1.
    cbn [x0 vec shape data bind]. rewrite Hs. reflexivity. }
  destruct (@init_inv solve nodes samples kind itp HL Hi W)
    as [_ [[Ek ->]|[Ek [yp [Hyp ->]]]]].
  - split.
    + intros q Hs. unfold derivative. rewrite Hscalar by exact Hs.
      split; reflexivity.
    + intros E. rewrite Ek in E. discriminate E.
  - split.
    + intros q Hs. unfold derivative. rewrite Hscalar by exact Hs.
      split; reflexivity.
    + intros _ q r c Hs Hc. unfold derivative.
      rewrite find_table by (auto; rewrite Hs; discriminate).
      cbn [bind]. rewrite Hs. cbn [app]. unfold lift2, col.
      cbn [shape data bind].
      replace (0 <? c)%nat with true by (symmetry; apply Nat.ltb_lt; lia).
      cbn [bind].
      match goal with
      | |- context [ew2 Qcminus (NdArray [r; 2%nat] ?a) (NdArray [r; 2%nat] ?b)] =>
          destruct (ew2_ok_same Qcminus [r; 2%nat] a b) as [d1 E1]; rewrite E1
      end.
      cbn [bind].
      match goal with
      | |- context [ew2 Qcminus (NdArray [r; c] ?a) (NdArray [r; c] ?b)] =>
          destruct (ew2_ok_same Qcminus [r; c] a b) as [d2 E2]; rewrite E2
      end.
      cbn [bind]. rewrite ew2_mismatch_last by exact Hc. reflexivity.
Qed.

Lemma derivative_rejects_shapes_witness :
  (forall q, shape q = [] ->
     find cubic4 q = Raise TypeError /\ derivative cubic4 q = Raise TypeError)
  /\ ("cubic"%string = "cubic"%string ->
      forall q r c, shape q = [r; c] -> (3 <= c)%nat ->
        derivative cubic4 q
        = Raise (ValueError "operands could not be broadcast together")).
Proof.
  apply (@derivative_rejects_shapes solve4 nodes4 samples4 "cubic" cubic4);
    [simpl; lia|reflexivity|reflexivity|reflexivity].
Defined.
